(** * memories: ratings, post listing and media lifecycle

    A shallow embedding of the service layer of the blog application:
    - [src/lib/storage]  (media upload, validation, temp-file sweep),
    - [src/lib/database] (paginated post listing, client-side search),
    - [src/lib/comments] (ratings and the denormalised post aggregates).

    The managed backend (document store, blob store) is an external
    collaborator.  It is modelled by explicit state: a bucket of objects for
    the blob store, and collections of documents for the document store.
    Every [async] function of the source becomes a computation in a small
    state-and-exception monad; [await] is sequencing, [throw] is [Err] and
    [try { } catch { }] is [try_catch].  Calls run one after the other, each
    to completion.

    Modelling conventions:
    - times ([Date.now()], [Timestamp.now()], [timeCreated]) are integers,
      in milliseconds, and are passed to the function that reads the clock;
    - JavaScript numbers that hold counts, sizes and star values are
      integers; [avgRating] is an exact rational, so [Math.round(x * 10) / 10]
      is computed without floating-point error;
    - a string is the sequence of the bytes of its text, in UTF-8.  What
      [toLowerCase] and [trim] do depends on the Unicode tables, so a
      function that applies them to arbitrary text takes them as a
      parameter; [JS.toLowerCase] and [JSMore.trim_ascii] are what they do
      on ASCII text;
    - the blob store keeps an object under the path the source builds, and
      lists under a directory its direct children: the objects at
      [dir/name] for a [name] that is not empty and holds no slash;
    - the document store orders a query on its one [orderBy]
      field, leaves documents with equal keys in its own order, and
      [startAfter] continues behind the cursor document;
    - an auto-generated document reference is drawn from a counter. *)

From Stdlib Require Import ZArith QArith Qround String Ascii List.
From stdpp Require Import base option list sorting gmap strings pretty.

Local Open Scope Z_scope.
Local Open Scope string_scope.

(** ** Exceptions and the effect monad *)

(** The two kinds of exception a backend call can raise. *)
Inductive Error : Type :=
  | NotFound (what : string)
  | BackendError (what : string).

Inductive Result (A : Type) : Type :=
  | Ok (a : A)
  | Err (e : Error).
Arguments Ok {A} a.
Arguments Err {A} e.

(** A computation over a backend state [St]: it returns a value or throws,
    and in both cases leaves a (possibly modified) state behind: a write
    that happened before a later [throw] stays written. *)
Definition M (St A : Type) : Type := St → Result A * St.

Definition ret {St A} (a : A) : M St A := λ s, (Ok a, s).

Definition bind {St A B} (m : M St A) (k : A → M St B) : M St B :=
  λ s, match m s with
       | (Ok a, s') => k a s'
       | (Err e, s') => (Err e, s')
       end.

Definition throw {St A} (e : Error) : M St A := λ s, (Err e, s).

Definition try_catch {St A} (body : M St A) (handler : Error → M St A) : M St A :=
  λ s, match body s with
       | (Ok a, s') => (Ok a, s')
       | (Err e, s') => handler e s'
       end.

Global Instance M_ret {St} : MRet (M St) := λ A, @ret St A.
Global Instance M_bind {St} : MBind (M St) := λ A B k m, @bind St A B m k.

(** [for (const x of l) { await body(x) }] *)
Fixpoint for_of {St A} (l : list A) (body : A → M St unit) : M St unit :=
  match l with
  | [] => ret tt
  | x :: l' => bind (body x) (λ _, for_of l' body)
  end.

(** ** JavaScript library functions used by the source *)

Module JS.

(** [String.prototype.toLowerCase] on ASCII text: the letters A-Z are
    lowered.  What it does to other text is left to the Unicode case
    tables; [Database.searchPosts_with] takes it as a parameter. *)
Definition lower_ascii (c : ascii) : ascii :=
  let n := nat_of_ascii c in
  if ((65 <=? n)%nat && (n <=? 90)%nat)%bool then ascii_of_nat (n + 32) else c.

Fixpoint toLowerCase (s : string) : string :=
  match s with
  | EmptyString => EmptyString
  | String c s' => String (lower_ascii c) (toLowerCase s')
  end.

(** [s.startsWith(p)] *)
Definition startsWith (s p : string) : bool := String.prefix p s.

(** [s.includes(t)]: [t] occurs in [s] at some offset. *)
Fixpoint includes (s t : string) : bool :=
  String.prefix t s ||
  match s with
  | EmptyString => false
  | String _ s' => includes s' t
  end.

(** [s.split(sep)] for a one-character separator: the pieces between the
    occurrences of [sep], empty pieces included; never the empty list. *)
Fixpoint split (sep : ascii) (s : string) : list string :=
  match s with
  | EmptyString => [EmptyString]
  | String c s' =>
      if Ascii.eqb c sep then EmptyString :: split sep s'
      else match split sep s' with
           | t :: ts => String c t :: ts
           | [] => [String c EmptyString]
           end
  end.

(** [l.join(sep)] *)
Definition join (sep : string) (l : list string) : string := String.concat sep l.

(** [Math.round]: the nearest integer, halves rounded up. *)
Definition Math_round (x : Q) : Z := Qfloor (Qplus x (1 # 2)).

(** [l.includes(x)] on an array of strings. *)
Definition array_includes (l : list string) (x : string) : bool :=
  existsb (String.eqb x) l.

End JS.

(** ** types/blog.ts *)

Inductive MediaType : Type := image | video.

Record MediaItem : Type := {
  media_id : string;
  media_url : string;
  media_type : MediaType;
  media_filename : string;
  media_size : Z;
  media_createdAt : Z;
}.

(** ** lib/storage *)

Module Storage.

(** A browser [File]: only the three properties the service reads. *)
Record File : Type := {
  file_name : string;
  file_type : string;
  file_size : Z;
}.

(** The metadata the blob store keeps for an object. *)
Record ObjectMeta : Type := {
  timeCreated : Z;
  object_size : Z;
  contentType : string;
}.

(** The blob store: objects by full path. *)
Abbreviation Bucket := (gmap string ObjectMeta).

(** The [storage] handle imported from [./firebase]: the download URL the
    service hands out for a path, and which calls fail for reasons of the
    service's own (network, permissions).  A call on a missing object
    fails regardless. *)
Record Service : Type := {
  downloadURL : string → string;
  upload_fails : string → bool;
  list_fails : string → bool;
  metadata_fails : string → bool;
  delete_fails : string → bool;
}.

(** The name [uploadFile] gives the stored object,
    [`${timestamp}-${file.name}`]. *)
Definition upload_fileName (timestamp : Z) (file : File) : string :=
  pretty timestamp +:+ "-" +:+ file_name file.

(** The path [uploadFile] stores it under: the post's folder when a
    [postId] is given, the user's temp folder otherwise.  An absent or empty
    [postId] is falsy. *)
Definition upload_storagePath (fileName userId : string) (postId : option string)
    : string :=
  match postId with
  | Some p => if String.eqb p "" then "temp/" +:+ userId +:+ "/" +:+ fileName
              else "posts/" +:+ p +:+ "/" +:+ fileName
  | None => "temp/" +:+ userId +:+ "/" +:+ fileName
  end.

(** What is left of [p] behind the prefix [pre], if [p] starts with it. *)
Fixpoint behind (pre p : string) : option string :=
  match pre, p with
  | EmptyString, _ => Some p
  | String a pre', String c p' => if Ascii.eqb a c then behind pre' p' else None
  | String _ _, EmptyString => None
  end.

(** The object at [p] lies in the folder [dir] itself: [p] is [dir/name]
    for a [name] that is not empty and holds no slash. *)
Definition direct_child (dir p : string) : bool :=
  match behind (dir +:+ "/") p with
  | Some name => negb (String.eqb name "") && negb (JS.includes name "/")
  | None => false
  end.

Section with_service.
Variable storage : Service.

(** [uploadBytes(ref(storage, path), file)] at server time [now] *)
Definition uploadBytes (path : string) (file : File) (now : Z) : M Bucket string :=
  λ b, if upload_fails storage path then (Err (BackendError path), b)
       else (Ok path,
             <[path := {| timeCreated := now; object_size := file_size file;
                          contentType := file_type file |}]> b).

Definition getDownloadURL (path : string) : M Bucket string :=
  ret (downloadURL storage path).

(** [deleteObject(ref(storage, path))] *)
Definition deleteObject (path : string) : M Bucket unit :=
  λ b, match b !! path with
       | None => (Err (NotFound path), b)
       | Some _ => if delete_fails storage path then (Err (BackendError path), b)
                   else (Ok tt, delete path b)
       end.

(** [getMetadata(ref(storage, path))] *)
Definition getMetadata (path : string) : M Bucket ObjectMeta :=
  λ b, match b !! path with
       | None => (Err (NotFound path), b)
       | Some m => if metadata_fails storage path then (Err (BackendError path), b)
                   else (Ok m, b)
       end.

(** [listAll(ref(storage, dir))], its [items]: the full paths of the
    objects that lie in the folder [dir] itself.  An object in a sub-folder
    is not among them (the service reports the sub-folder under
    [prefixes], which the source does not read). *)
Definition listAll (dir : string) : M Bucket (list string) :=
  λ b, if list_fails storage dir then (Err (BackendError dir), b)
       else (Ok (filter (λ p, direct_child dir p = true) (map_to_list b).*1), b).

(** [uploadFile(file, userId, postId?)].  [timestamp] is the value of
    [Date.now()] and [created] that of [new Date()]. *)
Definition uploadFile (timestamp created : Z)
    (file : File) (userId : string) (postId : option string) : M Bucket MediaItem :=
  try_catch
    (let fileName := upload_fileName timestamp file in
     let storagePath := upload_storagePath fileName userId postId in
     snapshot ← uploadBytes storagePath file timestamp;
     url ← getDownloadURL snapshot;
     let fileType := if JS.startsWith (file_type file) "image/" then image else video in
     ret {| media_id := fileName; media_url := url; media_type := fileType;
            media_filename := file_name file; media_size := file_size file;
            media_createdAt := created |})
    (λ error, throw error).

Definition deleteFile (filePath : string) : M Bucket unit :=
  try_catch (deleteObject filePath) (λ error, throw error).

Definition getFileMetadata (filePath : string) : M Bucket ObjectMeta :=
  try_catch (getMetadata filePath) (λ error, throw error).

Definition listFiles (directoryPath : string) : M Bucket (list string) :=
  try_catch (listAll directoryPath) (λ error, throw error).

Definition oneDayMs : Z := 24 * 60 * 60 * 1000.

(** [cleanupTempFiles(userId)], with [now] the value of [Date.now()]. *)
Definition cleanupTempFiles (now : Z) (userId : string) : M Bucket unit :=
  try_catch
    (let tempPath := "temp/" +:+ userId in
     files ← listFiles tempPath;
     for_of files (λ filePath,
       try_catch
         (metadata ← getFileMetadata filePath;
          let fileTime := timeCreated metadata in
          if now - fileTime >? oneDayMs then deleteFile filePath else ret tt)
         (λ _, ret tt)))
    (λ _, ret tt).

End with_service.

Record Validation : Type := {
  valid : bool;
  error : option string;
}.

Definition MAX_SIZE : Z := 500 * 1024 * 1024.
Definition ALLOWED_IMAGE_TYPES : list string :=
  ["image/jpeg"; "image/jpg"; "image/png"; "image/webp"; "image/gif"].
Definition ALLOWED_VIDEO_TYPES : list string :=
  ["video/mp4"; "video/mkv"; "video/webm"; "video/mov"; "video/avi"].
Definition ALLOWED_TYPES : list string := ALLOWED_IMAGE_TYPES ++ ALLOWED_VIDEO_TYPES.

Definition validateFile (file : File) : Validation :=
  if file_size file >? MAX_SIZE then
    {| valid := false; error := Some "File size exceeds 500MB limit" |}
  else if negb (JS.array_includes ALLOWED_TYPES (file_type file)) then
    {| valid := false;
       error := Some "File type not supported. Please upload images (JPEG, PNG, WebP, GIF) or videos (MP4, MKV, WebM, MOV, AVI)" |}
  else {| valid := true; error := None |}.

End Storage.

(** ** The document store *)

(** A post document as stored in the [posts] collection.  [avgRating] is a
    JavaScript number; it is kept here as an exact rational. *)
Record PostData : Type := {
  title : string;
  content : string;
  excerpt : string;
  tags : list string;
  media : list MediaItem;
  authorId : string;
  authorName : string;
  authorEmail : string;
  createdAt : Z;
  updatedAt : Z;
  viewCount : Z;
  avgRating : Q;
  totalRatings : Z;
}.

(** [BlogPost]: the document id together with the document's fields. *)
Record BlogPost : Type := {
  post_id : string;
  post_fields :> PostData;
}.

(** A document of the [ratings] collection, with its reference. *)
Record Rating : Type := {
  rating_id : nat;
  rating_postId : string;
  rating_authorId : string;
  rating_value : Z;
  rating_createdAt : Z;
}.

Module Firestore.

(** The database: posts by document id, the rating documents in the order
    the store returns them, and the supply of fresh document references
    ([doc(collection(db, ...))] draws an id nobody has used). *)
Record Db : Type := {
  posts : gmap string PostData;
  ratings : list Rating;
  next_ref : nat;
}.

Definition set_posts (ps : gmap string PostData) (db : Db) : Db :=
  {| posts := ps; ratings := ratings db; next_ref := next_ref db |}.
Definition set_ratings (rs : list Rating) (db : Db) : Db :=
  {| posts := posts db; ratings := rs; next_ref := next_ref db |}.

(** A snapshot of a post document: its id and its data. *)
Abbreviation DocSnapshot := (string * PostData)%type.

Definition reads {A} (f : Db → A) : M Db A := λ db, (Ok (f db), db).

(** [query(collection(db, 'ratings'), where(...), ...)] then [getDocs] *)
Definition query_ratings (P : Rating → bool) (db : Db) : list Rating :=
  List.filter P (ratings db).

(** [updateDoc(doc(db, 'posts', postId), fields)]: fails on a missing
    document. *)
Definition updateDoc_post (postId : string) (f : PostData → PostData) : M Db unit :=
  λ db, match posts db !! postId with
        | None => (Err (NotFound postId), db)
        | Some d => (Ok tt, set_posts (<[postId := f d]> (posts db)) db)
        end.

(** [deleteDoc(ref)] on a rating document. *)
Definition deleteDoc_rating (ref : nat) : M Db unit :=
  λ db, (Ok tt, set_ratings (List.filter (λ r, negb (rating_id r =? ref)%nat) (ratings db)) db).

(** [doc(collection(db, 'ratings'))]: a fresh reference. *)
Definition new_rating_ref : M Db nat :=
  λ db, (Ok (next_ref db),
         {| posts := posts db; ratings := ratings db; next_ref := S (next_ref db) |}).

(** A write batch: the staged operations, applied together by [commit]. *)
Inductive BatchOp : Type :=
  | BatchUpdate (ref : nat) (value : Z) (createdAt : Z)
  | BatchSet (ref : nat) (data : Rating).

(** [update(ref, { rating, createdAt })] as it acts on one stored row: the
    row with that reference gets the two fields overwritten. *)
Definition restamp (ref : nat) (value t : Z) (r : Rating) : Rating :=
  if (rating_id r =? ref)%nat
  then {| rating_id := rating_id r; rating_postId := rating_postId r;
          rating_authorId := rating_authorId r;
          rating_value := value; rating_createdAt := t |}
  else r.

Definition apply_op (op : BatchOp) (rs : list Rating) : list Rating :=
  match op with
  | BatchUpdate ref value t => map (restamp ref value t) rs
  | BatchSet ref data =>
      List.filter (λ r, negb (rating_id r =? ref)%nat) rs ++ [data]
  end.

Definition commit (batch : list BatchOp) : M Db unit :=
  λ db, (Ok tt, set_ratings (foldl (λ rs op, apply_op op rs) (ratings db) batch) db).

(** The four orderings of a post query. *)
Inductive SortBy : Type := newest | oldest | rating | views.

Definition orderBy_leb (s : SortBy) (a b : DocSnapshot) : bool :=
  match s with
  | oldest => (createdAt a.2 <=? createdAt b.2)%Z
  | rating => Qle_bool (avgRating b.2) (avgRating a.2)
  | views => (viewCount b.2 <=? viewCount a.2)%Z
  | newest => (createdAt b.2 <=? createdAt a.2)%Z
  end.

(** [orderBy(field, direction)]: the documents of [posts] sorted on the one
    field; documents with equal keys stay in the store's own order. *)
Definition ordered_posts (s : SortBy) (db : Db) : list DocSnapshot :=
  merge_sort (λ a b, Is_true (orderBy_leb s a b)) (map_to_list (posts db)).

(** [startAfter(cursor)]: the documents that follow the cursor document. *)
Fixpoint docs_after (cursor : DocSnapshot) (l : list DocSnapshot) : list DocSnapshot :=
  match l with
  | [] => []
  | d :: l' => if String.eqb d.1 cursor.1 then l' else docs_after cursor l'
  end.

(** [getDocs(query(posts, orderBy(s), limit(n), startAfter(cursor)))] *)
Definition getDocs_posts (s : SortBy) (n : nat) (cursor : option DocSnapshot)
    (db : Db) : list DocSnapshot :=
  take n (match cursor with
          | Some c => docs_after c (ordered_posts s db)
          | None => ordered_posts s db
          end).

End Firestore.

(** ** lib/database *)

Module Database.
Import Firestore.

Record GetPostsOptions : Type := {
  opt_sortBy : option SortBy;
  opt_limit : option nat;
  opt_startAfter : option DocSnapshot;
}.

Record PostsPage : Type := {
  page_posts : list BlogPost;
  hasMore : bool;
  lastDoc : option DocSnapshot;
}.

(** [{ id: doc.id, ...data }] *)
Definition post_of_doc (d : DocSnapshot) : BlogPost :=
  {| post_id := d.1; post_fields := d.2 |}.

(** [getPosts(options)].  [snapshot.docs[limitCount - 1]] is [undefined]
    when [limitCount] is 0. *)
Definition getPosts (options : GetPostsOptions) (db : Db) : PostsPage :=
  let sortBy := default newest (opt_sortBy options) in
  let limitCount := default 10%nat (opt_limit options) in
  let lastDoc := opt_startAfter options in
  let snapshot := getDocs_posts sortBy (limitCount + 1) lastDoc db in
  let posts := post_of_doc <$> snapshot in
  let hasMore := (limitCount <? length posts)%nat in
  let posts := if hasMore then removelast posts else posts in
  {| page_posts := posts;
     hasMore := hasMore;
     lastDoc := if hasMore
                then match limitCount with
                     | O => None
                     | S i => snapshot !! i
                     end
                else None |}.

Section with_toLowerCase.
(** [String.prototype.toLowerCase] *)
Variable toLowerCase : string → string.

(** The text a post is searched in. *)
Definition searchContent_with (post : BlogPost) : string :=
  toLowerCase (title post +:+ " " +:+ content post +:+ " " +:+ excerpt post
               +:+ " " +:+ JS.join " " (tags post)).

(** [searchPosts(searchQuery)] *)
Definition searchPosts_with (searchQuery : string) (db : Db) : list BlogPost :=
  let posts := page_posts (getPosts {| opt_sortBy := None; opt_limit := Some 100%nat;
                                       opt_startAfter := None |} db) in
  let searchTerms := JS.split " "%char (toLowerCase searchQuery) in
  List.filter
    (λ post, existsb (λ term, JS.includes (searchContent_with post) term) searchTerms)
    posts.

End with_toLowerCase.

(** The search on ASCII text. *)
Definition searchContent : BlogPost → string := searchContent_with JS.toLowerCase.
Definition searchPosts : string → Db → list BlogPost := searchPosts_with JS.toLowerCase.

End Database.

(** ** lib/comments *)

Module Comments.
Import Firestore.

(** The comparator of [ratings.sort((a, b) => b.createdAt - a.createdAt)]. *)
Definition newer_first (a b : Rating) : Prop :=
  (rating_createdAt b ≤ rating_createdAt a)%Z.

Global Instance newer_first_dec a b : Decision (newer_first a b).
Proof. unfold newer_first. apply _. Defined.

(** [getPostRatings(postId)]: the ratings of the post, newest first. *)
Definition getPostRatings (postId : string) (db : Db) : list Rating :=
  merge_sort newer_first
             (query_ratings (λ r, String.eqb (rating_postId r) postId) db).

Definition set_aggregates (avg : Q) (total : Z) (d : PostData) : PostData :=
  {| title := title d; content := content d; excerpt := excerpt d; tags := tags d;
     media := media d; authorId := authorId d; authorName := authorName d;
     authorEmail := authorEmail d; createdAt := createdAt d; updatedAt := updatedAt d;
     viewCount := viewCount d; avgRating := avg; totalRatings := total |}.

(** The value [updatePostRating] stores as [avgRating] for a non-empty list
    of ratings: [Math.round(avgRating * 10) / 10]. *)
Definition rounded_average (rs : list Rating) : Q :=
  let totalRating := foldl (λ sum r, sum + rating_value r) 0 rs in
  let avgRating := (inject_Z totalRating / inject_Z (Z.of_nat (length rs)))%Q in
  Qred (inject_Z (JS.Math_round (avgRating * 10)%Q) / 10)%Q.

(** [updatePostRating(postId)] *)
Definition updatePostRating (postId : string) : M Db unit :=
  try_catch
    (rs ← reads (getPostRatings postId);
     if (length rs =? 0)%nat then
       updateDoc_post postId (set_aggregates 0%Q 0)
     else
       updateDoc_post postId (set_aggregates (rounded_average rs) (Z.of_nat (length rs))))
    (λ error, throw error).

Definition same_pair (postId authorId : string) (r : Rating) : bool :=
  String.eqb (rating_postId r) postId && String.eqb (rating_authorId r) authorId.

(** [addOrUpdateRating(postId, rating, authorId)], with [now] the value of
    [Timestamp.now()]. *)
Definition addOrUpdateRating (now : Z) (postId : string) (rating : Z) (authorId : string)
    : M Db unit :=
  try_catch
    (existingRatingSnapshot ← reads (query_ratings (same_pair postId authorId));
     batch ← match existingRatingSnapshot with
             | ratingDoc :: _ =>
                 ret [BatchUpdate (rating_id ratingDoc) rating now]
             | [] =>
                 newRatingRef ← new_rating_ref;
                 ret [BatchSet newRatingRef
                        {| rating_id := newRatingRef; rating_postId := postId;
                           rating_authorId := authorId; rating_value := rating;
                           rating_createdAt := now |}]
             end;
     updatePostRating postId;;
     commit batch)
    (λ error, throw error).

(** [deleteRating(postId, authorId)] *)
Definition deleteRating (postId authorId : string) : M Db unit :=
  try_catch
    (snapshot ← reads (query_ratings (same_pair postId authorId));
     match snapshot with
     | ratingDoc :: _ =>
         deleteDoc_rating (rating_id ratingDoc);;
         updatePostRating postId
     | [] => ret tt
     end)
    (λ error, throw error).

End Comments.

(** ** Vocabulary of the statements, and sample data *)

Definition MiB : Z := 1024 * 1024.

(** The storage path [Storage.uploadFile] writes to. *)
Definition upload_path (timestamp : Z) (file : Storage.File) (userId : string)
    (postId : option string) : string :=
  Storage.upload_storagePath (Storage.upload_fileName timestamp file) userId postId.

(** One iteration of the temp-file sweep removes the object at [p] when its
    metadata can be fetched, it was created more than a day before [now],
    and the delete goes through. *)
Definition swept (storage : Storage.Service) (now : Z) (p : string)
    (m : Storage.ObjectMeta) : bool :=
  negb (Storage.metadata_fails storage p)
  && (now - Storage.timeCreated m >? Storage.oneDayMs)
  && negb (Storage.delete_fails storage p).

Definition sweep_step (storage : Storage.Service) (now : Z) (p : string)
    (b : Storage.Bucket) : Storage.Bucket :=
  match b !! p with
  | Some m => if swept storage now p m then delete p b else b
  | None => b
  end.

(** A storage service on which no call fails. *)
Definition reliable_storage : Storage.Service :=
  {| Storage.downloadURL := λ path, "https://storage.example/" +:+ path;
     Storage.upload_fails := λ _, false;
     Storage.list_fails := λ _, false;
     Storage.metadata_fails := λ _, false;
     Storage.delete_fails := λ _, false |}.

(** [s] occurs in [t]. *)
Definition substring_of (s t : string) : Prop :=
  ∃ pre suf, t = pre +:+ s +:+ suf.

(** The query made of [n] spaces. *)
Fixpoint spaces (n : nat) : string :=
  match n with
  | O => ""
  | S n' => String " " (spaces n')
  end.

(** A post with the given title and creation time, and nothing else. *)
Definition sample_post (t : string) (created : Z) : PostData :=
  {| title := t; content := ""; excerpt := ""; tags := []; media := [];
     authorId := "author"; authorName := "Author"; authorEmail := "author@example.org";
     createdAt := created; updatedAt := created; viewCount := 0;
     avgRating := 0; totalRatings := 0 |}.

(** A database of [n] posts [p1 .. pn], created at times [1 .. n], without
    ratings. *)
Definition sample_db (n : nat) : Firestore.Db :=
  {| Firestore.posts :=
       list_to_map ((λ i : nat, ("p" +:+ pretty i, sample_post ("Post " +:+ pretty i) (Z.of_nat i)))
                    <$> seq 1 n);
     Firestore.ratings := [];
     Firestore.next_ref := 0 |}.

(** The four consecutive pages of size [k], each requested with the cursor
    the previous one returned. *)
Definition four_pages (sortBy : Firestore.SortBy) (k : nat) (db : Firestore.Db)
    : Database.PostsPage * Database.PostsPage * Database.PostsPage * Database.PostsPage :=
  let page cursor :=
    Database.getPosts {| Database.opt_sortBy := Some sortBy; Database.opt_limit := Some k;
                         Database.opt_startAfter := cursor |} db in
  let p1 := page None in
  let p2 := page (Database.lastDoc p1) in
  let p3 := page (Database.lastDoc p2) in
  let p4 := page (Database.lastDoc p3) in
  (p1, p2, p3, p4).

(** The three posts of the search example, oldest first. *)
Definition search_db : Firestore.Db :=
  {| Firestore.posts :=
       {[ "p1" := sample_post "Alpha Trip" 1;
          "p2" := sample_post "Beta Notes" 2;
          "p3" := sample_post "Gamma" 3 ]};
     Firestore.ratings := [];
     Firestore.next_ref := 0 |}.

(** The batch [Database.searchPosts] filters: the first page of 100 posts,
    newest first. *)
Definition search_batch (db : Firestore.Db) : list BlogPost :=
  Database.page_posts
    (Database.getPosts {| Database.opt_sortBy := None; Database.opt_limit := Some 100%nat;
                          Database.opt_startAfter := None |} db).

(** The search as the specification words it: the query is split on
    whitespace (space, tab, line feed, vertical tab, form feed, carriage
    return), not on the space character alone. *)
Definition is_whitespace (c : ascii) : bool :=
  let n := nat_of_ascii c in
  ((n =? 32) || ((9 <=? n) && (n <=? 13)))%nat.

Fixpoint split_whitespace (s : string) : list string :=
  match s with
  | EmptyString => [EmptyString]
  | String c s' =>
      if is_whitespace c then EmptyString :: split_whitespace s'
      else match split_whitespace s' with
           | t :: ts => String c t :: ts
           | [] => [String c EmptyString]
           end
  end.

Definition searchPosts_on_whitespace (searchQuery : string) (db : Firestore.Db)
    : list BlogPost :=
  let searchTerms := split_whitespace (JS.toLowerCase searchQuery) in
  List.filter
    (λ post, existsb (λ term, JS.includes (Database.searchContent post) term) searchTerms)
    (search_batch db).

(** The query [alpha<TAB>beta]. *)
Definition tab_query : string := "alpha" +:+ String "009" "beta".

(** The aggregates [Comments.updatePostRating] stores for a list of
    ratings: [(avgRating, totalRatings)]. *)
Definition aggregates_of (rs : list Rating) : Q * Z :=
  if (length rs =? 0)%nat then (0%Q, 0)
  else (Comments.rounded_average rs, Z.of_nat (length rs)).

(** The aggregates stored on a post, if the post exists. *)
Definition post_aggregates (postId : string) (db : Firestore.Db) : option (Q * Z) :=
  (λ d, (avgRating d, totalRatings d)) <$> Firestore.posts db !! postId.

(** At most one rating per (post, author) pair. *)
Definition one_rating_per_pair (db : Firestore.Db) : Prop :=
  ∀ postId authorId,
    (length (Firestore.query_ratings (Comments.same_pair postId authorId) db) ≤ 1)%nat.

(** A storage service whose metadata call fails for one path. *)
Definition flaky_storage (bad : string) : Storage.Service :=
  {| Storage.downloadURL := λ path, "https://storage.example/" +:+ path;
     Storage.upload_fails := λ _, false;
     Storage.list_fails := λ _, false;
     Storage.metadata_fails := String.eqb bad;
     Storage.delete_fails := λ _, false |}.

Definition object_created (t : Z) : Storage.ObjectMeta :=
  {| Storage.timeCreated := t; Storage.object_size := 1; Storage.contentType := "image/png" |}.

(** Temp objects of user [u1] created 1 ms before, exactly at and 1 ms after
    the moment 24 hours before time [100000000], an old temp object of
    another user, and an old object of a post. *)
Definition sample_bucket : Storage.Bucket :=
  {[ "temp/u1/a.png" := object_created (100000000 - 86400000 - 1);
     "temp/u1/b.png" := object_created (100000000 - 86400000);
     "temp/u1/c.png" := object_created (100000000 - 86400000 + 1);
     "temp/u1/d.png" := object_created 0;
     "temp/u10/e.png" := object_created 0;
     "posts/p1/f.png" := object_created 0 ]}.

(** A text file, which [Storage.validateFile] rejects. *)
Definition text_file : Storage.File :=
  {| Storage.file_name := "notes.txt"; Storage.file_type := "text/plain";
     Storage.file_size := 12 |}.

(** * The rest of the service layer, and its callers *)

(** ** More of the JavaScript library *)

Module JSMore.

(** [s.trimStart()] on ASCII text, whose white space is space, tab, line
    feed, vertical tab, form feed and carriage return. *)
Fixpoint trimStart_ascii (s : string) : string :=
  match s with
  | String c s' => if is_whitespace c then trimStart_ascii s' else s
  | EmptyString => EmptyString
  end.

(** [s.trimEnd()] on ASCII text: a character is dropped when it is white
    space and nothing but white space follows it. *)
Fixpoint trimEnd_ascii (s : string) : string :=
  match s with
  | String c s' =>
      match trimEnd_ascii s' with
      | EmptyString => if is_whitespace c then EmptyString else String c EmptyString
      | rest => String c rest
      end
  | EmptyString => EmptyString
  end.

(** [s.trim()] on ASCII text.  On other text [trim] also strips the
    Unicode spaces; [TagInput.addTag] takes it as a parameter. *)
Definition trim_ascii (s : string) : string := trimEnd_ascii (trimStart_ascii s).

(** [a % b] on integers; [NaN] (here [None]) when [b] is 0. *)
Definition remainder (a b : Z) : option Z :=
  if (b =? 0)%Z then None else Some (Z.rem a b).

End JSMore.

(** ** lib/database, continued *)

(** [BlogPostInput] *)
Record BlogPostInput : Type := {
  input_title : string;
  input_content : string;
  input_excerpt : string;
  input_tags : list string;
}.

(** [Partial<BlogPostInput & { media }>]: a field that is absent is left
    alone by the update. *)
Record PostUpdates : Type := {
  upd_title : option string;
  upd_content : option string;
  upd_excerpt : option string;
  upd_tags : option (list string);
  upd_media : option (list MediaItem);
}.

Module PostStore.
Import Firestore Database.

(** [addDoc(collection(db, 'posts'), post)]: the document is stored under
    an id no document has. *)
Definition addDoc_post (post : PostData) : M Db string :=
  λ db, let id := fresh (dom (posts db)) in
        (Ok id, set_posts (<[id := post]> (posts db)) db).

(** [createPost(postData, authorId, authorName, authorEmail)]; [created] and
    [updated] are its two readings of [Timestamp.now()].  The flag
    [published: true] it also writes is not a field of [BlogPost] and is
    read by no function. *)
Definition createPost (created updated : Z) (postData : BlogPostInput)
    (authorId authorName authorEmail : string) : M Db string :=
  try_catch
    (let post :=
       {| title := input_title postData; content := input_content postData;
          excerpt := input_excerpt postData; tags := input_tags postData;
          authorId := authorId; authorName := authorName; authorEmail := authorEmail;
          createdAt := created; updatedAt := updated;
          viewCount := 0; avgRating := 0; totalRatings := 0; media := [] |} in
     docRef ← addDoc_post post;
     ret docRef)
    (λ error, throw error).

(** [getPost(postId)]: the post, or [null]. *)
Definition getPost (postId : string) : M Db (option BlogPost) :=
  try_catch
    (docSnap ← reads (λ db, posts db !! postId);
     match docSnap with
     | None => ret None
     | Some data => ret (Some {| post_id := postId; post_fields := data |})
     end)
    (λ error, throw error).

(** The document after [updateDoc(docRef, { ...updates, updatedAt })]. *)
Definition apply_updates (updates : PostUpdates) (now : Z) (d : PostData) : PostData :=
  {| title := default (title d) (upd_title updates);
     content := default (content d) (upd_content updates);
     excerpt := default (excerpt d) (upd_excerpt updates);
     tags := default (tags d) (upd_tags updates);
     media := default (media d) (upd_media updates);
     authorId := authorId d; authorName := authorName d; authorEmail := authorEmail d;
     createdAt := createdAt d; updatedAt := now;
     viewCount := viewCount d; avgRating := avgRating d;
     totalRatings := totalRatings d |}.

(** [updatePost(postId, updates)] *)
Definition updatePost (now : Z) (postId : string) (updates : PostUpdates) : M Db unit :=
  try_catch
    (updateDoc_post postId (apply_updates updates now))
    (λ error, throw error).

Definition add_view (d : PostData) : PostData :=
  {| title := title d; content := content d; excerpt := excerpt d; tags := tags d;
     media := media d; authorId := authorId d; authorName := authorName d;
     authorEmail := authorEmail d; createdAt := createdAt d; updatedAt := updatedAt d;
     viewCount := viewCount d + 1; avgRating := avgRating d;
     totalRatings := totalRatings d |}.

(** [incrementViewCount(postId)]: [updateDoc(docRef, { viewCount: increment(1) })] *)
Definition incrementViewCount (postId : string) : M Db unit :=
  try_catch
    (updateDoc_post postId add_view)
    (λ error, throw error).

(** [getPostsByTag(tag)]: the posts whose [tags] contain [tag], newest
    first, 50 at most. *)
Definition getPostsByTag (tag : string) : M Db (list BlogPost) :=
  try_catch
    (snapshot ← reads (λ db,
       take 50 (List.filter (λ d : DocSnapshot, JS.array_includes (tags d.2) tag)
                            (ordered_posts newest db)));
     ret (post_of_doc <$> snapshot))
    (λ error, throw error).

End PostStore.

(** ** lib/comments, continued *)

(** A document of the [comments] collection, with its reference. *)
Record Comment : Type := {
  comment_id : nat;
  comment_postId : string;
  comment_content : string;
  comment_authorId : string;
  comment_authorName : string;
  comment_authorEmail : string;
  comment_createdAt : Z;
  comment_updatedAt : Z;
}.

Module CommentStore.
Import Firestore Comments.

(** [getUserRating(postId, authorId)]: the author's rating of the post, or
    [null]. *)
Definition getUserRating (postId authorId : string) : M Db (option Z) :=
  try_catch
    (snapshot ← reads (query_ratings (same_pair postId authorId));
     match snapshot with
     | [] => ret None
     | ratingDoc :: _ => ret (Some (rating_value ratingDoc))
     end)
    (λ error, throw error).

(** The whole document store: the database of posts and ratings, and the
    [comments] collection with its own supply of references. *)
Record Site : Type := {
  site_db : Db;
  site_comments : list Comment;
  next_comment_ref : nat;
}.

Definition set_comments (cs : list Comment) (s : Site) : Site :=
  {| site_db := site_db s; site_comments := cs; next_comment_ref := next_comment_ref s |}.

(** A computation on posts and ratings, run inside the whole store. *)
Definition lift_db {A} (m : M Db A) : M Site A :=
  λ s, let result := m (site_db s) in
       (result.1, {| site_db := result.2; site_comments := site_comments s;
                     next_comment_ref := next_comment_ref s |}).

Definition reads_site {A} (f : Site → A) : M Site A := λ s, (Ok (f s), s).

Definition query_comments (P : Comment → bool) (s : Site) : list Comment :=
  List.filter P (site_comments s).

(** [addDoc(collection(db, 'comments'), comment)] *)
Definition addDoc_comment (data : nat → Comment) : M Site nat :=
  λ s, (Ok (next_comment_ref s),
        {| site_db := site_db s;
           site_comments := (site_comments s ++ [data (next_comment_ref s)])%list;
           next_comment_ref := S (next_comment_ref s) |}).

(** [updateDoc(doc(db, 'comments', commentId), fields)]: fails on a missing
    document. *)
Definition updateDoc_comment (commentId : nat) (f : Comment → Comment) : M Site unit :=
  λ s, if existsb (λ c, (comment_id c =? commentId)%nat) (site_comments s)
       then (Ok tt, set_comments
                      (map (λ c, if (comment_id c =? commentId)%nat then f c else c)
                           (site_comments s)) s)
       else (Err (NotFound (pretty commentId)), s).

(** [deleteDoc(ref)] on a comment document. *)
Definition deleteDoc_comment (ref : nat) : M Site unit :=
  λ s, (Ok tt, set_comments
                 (List.filter (λ c, negb (comment_id c =? ref)%nat) (site_comments s)) s).

(** [deleteDoc(doc(db, 'posts', postId))] *)
Definition deleteDoc_post (postId : string) : M Db unit :=
  λ db, (Ok tt, set_posts (delete postId (posts db)) db).

(** [addComment(postId, content, authorId, authorName, authorEmail)];
    [created] and [updated] are its two readings of [Timestamp.now()]. *)
Definition addComment (created updated : Z) (postId content : string)
    (authorId authorName authorEmail : string) : M Site nat :=
  try_catch
    (docRef ← addDoc_comment (λ ref,
       {| comment_id := ref; comment_postId := postId; comment_content := content;
          comment_authorId := authorId; comment_authorName := authorName;
          comment_authorEmail := authorEmail;
          comment_createdAt := created; comment_updatedAt := updated |});
     ret docRef)
    (λ error, throw error).

(** The comparator of [comments.sort((a, b) => b.createdAt - a.createdAt)]. *)
Definition newer_comment_first (a b : Comment) : Prop :=
  (comment_createdAt b ≤ comment_createdAt a)%Z.

Global Instance newer_comment_first_dec a b : Decision (newer_comment_first a b).
Proof. unfold newer_comment_first. apply _. Defined.

(** [getComments(postId)]: the comments of the post, newest first. *)
Definition getComments (postId : string) : M Site (list Comment) :=
  try_catch
    (snapshot ← reads_site (query_comments (λ c, String.eqb (comment_postId c) postId));
     ret (merge_sort newer_comment_first snapshot))
    (λ error, throw error).

Definition edit_comment (content : string) (now : Z) (c : Comment) : Comment :=
  {| comment_id := comment_id c; comment_postId := comment_postId c;
     comment_content := content; comment_authorId := comment_authorId c;
     comment_authorName := comment_authorName c;
     comment_authorEmail := comment_authorEmail c;
     comment_createdAt := comment_createdAt c; comment_updatedAt := now |}.

(** [updateComment(commentId, content)] *)
Definition updateComment (now : Z) (commentId : nat) (content : string) : M Site unit :=
  try_catch
    (updateDoc_comment commentId (edit_comment content now))
    (λ error, throw error).

(** [deleteComment(commentId)] *)
Definition deleteComment (commentId : nat) : M Site unit :=
  try_catch (deleteDoc_comment commentId) (λ error, throw error).

End CommentStore.

Module PostDeletion.
Import Firestore CommentStore.

(** [deletePost(postId)] of lib/database.  The deletes of a [Promise.all]
    are run in the order of the snapshot; they cannot fail and each removes
    the document of one reference, so any other order leaves the same
    store. *)
Definition deletePost (postId : string) : M Site unit :=
  try_catch
    (try_catch
       (commentsSnapshot ←
          reads_site (query_comments (λ c, String.eqb (comment_postId c) postId));
        for_of commentsSnapshot (λ commentDoc, deleteDoc_comment (comment_id commentDoc));;
        ratingsSnapshot ←
          lift_db (reads (query_ratings (λ r, String.eqb (rating_postId r) postId)));
        for_of ratingsSnapshot
          (λ ratingDoc, lift_db (deleteDoc_rating (rating_id ratingDoc))))
       (λ subError, ret tt);;
     lift_db (deleteDoc_post postId))
    (λ error, throw error).

End PostDeletion.

(** ** lib/storage, continued *)

(** What [fetch(url)] followed by [response.blob()] yields. *)
Record Blob : Type := {
  blob_type : string;
  blob_size : Z;
}.

Module StorageMove.
Import Storage.

Section with_service.
Variable storage : Service.
(** [fetch(url)] and [response.blob()]: the blob behind a URL, or a
    failure. *)
Variable fetch_blob : string → Result Blob.

Definition fetch (url : string) : M Bucket Blob :=
  λ b, (fetch_blob url, b).

(** The loop of [moveFilesToPost]; [clock i] holds the readings of
    [Date.now()] and [new Date()] in the upload of round [i]. *)
Fixpoint move_loop (clock : nat → Z * Z) (i : nat) (tempFiles : list MediaItem)
    (userId postId : string) (movedFiles : list MediaItem) : M Bucket (list MediaItem) :=
  match tempFiles with
  | [] => ret movedFiles
  | file :: rest =>
      blob ← fetch (media_url file);
      let fileObj := {| file_name := media_filename file; file_type := blob_type blob;
                        file_size := blob_size blob |} in
      newFile ← uploadFile storage (clock i).1 (clock i).2 fileObj userId (Some postId);
      let movedFiles := (movedFiles ++ [newFile])%list in
      let tempPath := "temp/" +:+ userId +:+ "/" +:+ media_id file in
      deleteFile storage tempPath;;
      move_loop clock (S i) rest userId postId movedFiles
  end.

(** [moveFilesToPost(tempFiles, userId, postId)] *)
Definition moveFilesToPost (clock : nat → Z * Z) (tempFiles : list MediaItem)
    (userId postId : string) : M Bucket (list MediaItem) :=
  try_catch (move_loop clock 0 tempFiles userId postId []) (λ error, throw error).

End with_service.

End StorageMove.

(** ** hooks/use-posts *)

Module PostsHook.
Import Firestore Database.

Record HookOptions : Type := {
  hook_sortBy : option SortBy;
  hook_limit : option nat;
}.

(** [options.limit || 12]: an absent limit and the limit 0 are falsy. *)
Definition limit_or_12 (limit : option nat) : nat :=
  match limit with
  | None | Some O => 12
  | Some k => k
  end.

(** [queryFn: ({ pageParam }) => getPosts({ ...options, startAfter:
    pageParam, limit: options.limit || 12 })] *)
Definition queryFn (options : HookOptions) (pageParam : option DocSnapshot)
    (db : Db) : PostsPage :=
  getPosts {| opt_sortBy := hook_sortBy options;
              opt_limit := Some (limit_or_12 (hook_limit options));
              opt_startAfter := pageParam |} db.

(** [getNextPageParam: (lastPage) => lastPage.hasMore ? lastPage.lastDoc :
    undefined] *)
Definition getNextPageParam (lastPage : PostsPage) : option DocSnapshot :=
  if hasMore lastPage then lastDoc lastPage else None.

(** The pages of the infinite query: the page fetched with [pageParam],
    followed by what up to [more] calls of [fetchNextPage] add; a call
    fetches nothing once [getNextPageParam] gives no parameter. *)
Fixpoint fetch_pages (options : HookOptions) (db : Db) (more : nat)
    (pageParam : option DocSnapshot) : list PostsPage :=
  let page := queryFn options pageParam db in
  page :: match more, getNextPageParam page with
          | S more', Some next => fetch_pages options db more' (Some next)
          | _, _ => []
          end.

(** [useInfinitePosts(options)] after the first fetch ([initialPageParam] is
    [null]) and [more] calls of [fetchNextPage]. *)
Definition useInfinitePosts (options : HookOptions) (db : Db) (more : nat)
    : list PostsPage :=
  fetch_pages options db more None.

End PostsHook.

(** ** components: the rating section *)

Module RatingSection.
Import Firestore Comments.

(** [handleRatingSubmit(rating)]: what [onRatingUpdate] is called with, if
    it is called.  [user] is the signed-in user's [uid]. *)
Definition handleRatingSubmit (now : Z) (user : option string) (submitting : bool)
    (postId : string) (rating : Z) : M Db (option (Q * Z)) :=
  match user with
  | None => ret None
  | Some uid =>
      if submitting then ret None
      else
        try_catch
          (addOrUpdateRating now postId rating uid;;
           ratings ← reads (getPostRatings postId);
           if (0 <? length ratings)%nat
           then ret (Some (rounded_average ratings, Z.of_nat (length ratings)))
           else ret (Some (0%Q, 0)))
          (λ error, ret None)
  end.

End RatingSection.

(** ** hooks/use-media-upload *)

Module MediaUploadHook.
Import Storage.

Record Options : Type := {
  maxFiles : Z;
  maxFileSize : Z;
  allowedTypes : list string;
}.

Definition DEFAULT_OPTIONS : Options :=
  {| maxFiles := 10;
     maxFileSize := 500 * 1024 * 1024;
     allowedTypes := ["image/jpeg"; "image/jpg"; "image/png"; "image/webp"; "image/gif";
                      "video/mp4"; "video/webm"; "video/quicktime"; "video/x-msvideo"] |}.

Record MediaUploadState : Type := {
  selectedFiles : list File;
  uploadedMedia : list MediaItem;
  isUploading : bool;
  uploadProgress : Z;
  upload_error : option string;
}.

(** [validateFiles(files)]: the files that pass, and a message for each
    file that does not. *)
Fixpoint validateFiles (opts : Options) (files : list File) : list File * list string :=
  match files with
  | [] => ([], [])
  | file :: rest =>
      let result := validateFiles opts rest in
      if negb (JS.array_includes (allowedTypes opts) (file_type file)) then
        (result.1, (file_name file +:+ ": Unsupported file type") :: result.2)
      else if file_size file >? maxFileSize opts then
        let sizeMB := JS.Math_round (inject_Z (maxFileSize opts) / inject_Z (1024 * 1024))%Q in
        (result.1,
         (file_name file +:+ ": File size exceeds " +:+ pretty sizeMB +:+ "MB limit")
           :: result.2)
      else (file :: result.1, result.2)
  end.

Definition set_error (e : option string) (state : MediaUploadState) : MediaUploadState :=
  {| selectedFiles := selectedFiles state; uploadedMedia := uploadedMedia state;
     isUploading := isUploading state; uploadProgress := uploadProgress state;
     upload_error := e |}.

Definition set_selectedFiles (fs : list File) (state : MediaUploadState)
    : MediaUploadState :=
  {| selectedFiles := fs; uploadedMedia := uploadedMedia state;
     isUploading := isUploading state; uploadProgress := uploadProgress state;
     upload_error := upload_error state |}.

(** [addFiles(newFiles)] *)
Definition addFiles (opts : Options) (state : MediaUploadState) (newFiles : list File)
    : MediaUploadState :=
  let result := validateFiles opts newFiles in
  if (0 <? length result.2)%nat then
    set_error (Some (JS.join ", " result.2)) state
  else
    let totalFiles :=
      Z.of_nat (length (selectedFiles state) + length (uploadedMedia state)
                + length result.1) in
    if totalFiles >? maxFiles opts then
      set_error (Some ("Maximum " +:+ pretty (maxFiles opts) +:+ " files allowed")) state
    else
      set_error None (set_selectedFiles (selectedFiles state ++ result.1)%list state).

(** [prev.selectedFiles.filter((_, i) => i !== index)] *)
Fixpoint remove_at {A} (index : nat) (l : list A) : list A :=
  match l, index with
  | [], _ => []
  | _ :: l', O => l'
  | x :: l', S i => x :: remove_at i l'
  end.

(** [removeFile(index)] *)
Definition removeFile (index : nat) (state : MediaUploadState) : MediaUploadState :=
  set_selectedFiles (remove_at index (selectedFiles state)) state.

(** [removeUploadedMedia(mediaId)] *)
Definition removeUploadedMedia (mediaId : string) (state : MediaUploadState)
    : MediaUploadState :=
  {| selectedFiles := selectedFiles state;
     uploadedMedia :=
       List.filter (λ media, negb (String.eqb (media_id media) mediaId)) (uploadedMedia state);
     isUploading := isUploading state; uploadProgress := uploadProgress state;
     upload_error := upload_error state |}.

End MediaUploadHook.

(** ** components/ui/tag-input *)

Module TagInput.

Section with_trim.
(** [String.prototype.trim] *)
Variable trim : string → string.

(** [addTag()]: the list handed to [onTagsChange] if it is called, and the
    text left in the input. *)
Definition addTag (tags : list string) (maxTags : nat) (currentTag : string)
    : option (list string) * string :=
  let trimmedTag := trim currentTag in
  if negb (String.eqb trimmedTag "") && negb (JS.array_includes tags trimmedTag)
     && (length tags <? maxTags)%nat
  then (Some (tags ++ [trimmedTag])%list, "")
  else (None, currentTag).

End with_trim.

(** [removeTag(tagToRemove)]: the list handed to [onTagsChange]. *)
Definition removeTag (tags : list string) (tagToRemove : string) : list string :=
  List.filter (λ tag, negb (String.eqb tag tagToRemove)) tags.

End TagInput.

(** ** components/blog/post-detail: the media viewer *)

Module MediaNavigation.

Inductive Direction : Type := next | prev.

(** [handleMediaNavigation(direction)] on a loaded post: the new
    [viewerIndex], [None] standing for [NaN]. *)
Definition handleMediaNavigation (direction : Direction) (viewerIndex : Z)
    (media : list MediaItem) : option Z :=
  match direction with
  | next => JSMore.remainder (viewerIndex + 1) (Z.of_nat (length media))
  | prev => Some (if viewerIndex =? 0 then Z.of_nat (length media) - 1
                  else viewerIndex - 1)%Z
  end.

End MediaNavigation.

(** ** lib/auth *)

(** A value caught by [catch]: an [Error] with its message, or anything
    else. *)
Inductive Thrown : Type :=
  | ErrorObject (message : string)
  | OtherValue.

Module Auth.

Record User : Type := {
  uid : string;
  email : option string;
  displayName : option string;
}.

Record SignInResult : Type := {
  success : bool;
  signin_error : option string;
}.

Section with_config.
(** [AUTHORIZED_EMAIL], from the configuration. *)
Variable AUTHORIZED_EMAIL : string.

(** [isAuthorizedUser(user)]: [user?.email === AUTHORIZED_EMAIL] *)
Definition isAuthorizedUser (user : option User) : bool :=
  match user with
  | Some u => match email u with
              | Some e => String.eqb e AUTHORIZED_EMAIL
              | None => false
              end
  | None => false
  end.

(** [signInWithGoogle()].  The state is the user the identity provider
    holds as signed in; [popup] is the outcome of [signInWithPopup] and
    [signOut_failure] that of [firebaseSignOut], should it fail. *)
Definition signInWithGoogle (popup : Thrown + User) (signOut_failure : option Thrown)
    (current : option User) : SignInResult * option User :=
  let catch (error : Thrown) :=
    {| success := false;
       signin_error := Some match error with
                            | ErrorObject message => message
                            | OtherValue => "Failed to sign in with Google"
                            end |} in
  match popup with
  | inl error => (catch error, current)
  | inr user =>
      if negb (isAuthorizedUser (Some user)) then
        match signOut_failure with
        | Some error => (catch error, Some user)
        | None =>
            ({| success := false;
                signin_error :=
                  Some "Access denied. Only authorized users can access this application." |},
             None)
        end
      else ({| success := true; signin_error := None |}, Some user)
  end.

(** [onAuthStateChange(callback)]: what [callback] receives when the
    provider reports [user]. *)
Definition onAuthStateChange (user : option User) : option User :=
  match user with
  | Some u => if isAuthorizedUser (Some u) then Some u else None
  | None => None
  end.

End with_config.

End Auth.

(** ** hooks/use-form-state *)

Module FormState.

Record FormState : Type := {
  isLoading : bool;
  form_error : option string;
  isDirty : bool;
}.

Definition setLoading (loading : bool) (s : FormState) : FormState :=
  {| isLoading := loading; form_error := form_error s; isDirty := isDirty s |}.
Definition setError (e : option string) (s : FormState) : FormState :=
  {| isLoading := isLoading s; form_error := e; isDirty := isDirty s |}.
Definition setDirty (dirty : bool) (s : FormState) : FormState :=
  {| isLoading := isLoading s; form_error := form_error s; isDirty := dirty |}.
Definition reset (s : FormState) : FormState :=
  {| isLoading := false; form_error := None; isDirty := false |}.

(** [executeAsync(asyncFn)].  A value of type [T | null] is an
    [option T], [None] being [null].  [outcome] is what [asyncFn()]
    resolves to, which may be [null] itself, or what it throws; [onSuccess]
    and [onError] tell whether the callback of that name, if given, throws.
    The result is the value returned or the value thrown. *)
Definition executeAsync {T} (resetOnSuccess : bool) (onSuccess onError : option Thrown)
    (outcome : Thrown + option T) (s : FormState) : (Thrown + option T) * FormState :=
  let s := setError None (setLoading true s) in
  let catch (error : Thrown) (s : FormState) :=
    let errorMessage := match error with
                        | ErrorObject message => message
                        | OtherValue => "An error occurred"
                        end in
    let s := setLoading false (setError (Some errorMessage) s) in
    match onError with
    | Some thrown => (inl thrown, s)
    | None => (inr None, s)
    end in
  match outcome with
  | inl error => catch error s
  | inr result =>
      let s := if resetOnSuccess then reset s else setDirty false (setLoading false s) in
      match onSuccess with
      | Some thrown => catch thrown s
      | None => (inr result, s)
      end
  end.

End FormState.

(** ** Vocabulary of the further statements *)

(** The computation [m], [n] times in a row. *)
Fixpoint times {St} (n : nat) (m : M St unit) : M St unit :=
  match n with
  | O => ret tt
  | S n' => bind m (λ _, times n' m)
  end.

(** Two post documents that differ at most in their view count. *)
Definition same_but_views (d d' : PostData) : Prop :=
  title d' = title d ∧ content d' = content d ∧ excerpt d' = excerpt d
  ∧ tags d' = tags d ∧ media d' = media d ∧ authorId d' = authorId d
  ∧ authorName d' = authorName d ∧ authorEmail d' = authorEmail d
  ∧ createdAt d' = createdAt d ∧ updatedAt d' = updatedAt d
  ∧ avgRating d' = avgRating d ∧ totalRatings d' = totalRatings d.

(** [a] comes no later than [b] in the order [s] of a post query. *)
Definition in_order (s : Firestore.SortBy) (a b : BlogPost) : Prop :=
  Is_true (Firestore.orderBy_leb s (post_id a, post_fields a) (post_id b, post_fields b)).

(** The references of the rating documents are distinct, and all were
    drawn from the supply. *)
Definition rating_refs_wf (db : Firestore.Db) : Prop :=
  NoDup (rating_id <$> Firestore.ratings db)
  ∧ Forall (λ r, (rating_id r < Firestore.next_ref db)%nat) (Firestore.ratings db).

(** The same for the comment documents. *)
Definition comment_refs_wf (s : CommentStore.Site) : Prop :=
  NoDup (comment_id <$> CommentStore.site_comments s)
  ∧ Forall (λ c, (comment_id c < CommentStore.next_comment_ref s)%nat)
           (CommentStore.site_comments s).

(** A series of ratings of one post, each given as the time of the call,
    the author and the stars, submitted one after the other. *)
Fixpoint rate_all (postId : string) (votes : list (Z * string * Z)) : M Firestore.Db unit :=
  match votes with
  | [] => ret tt
  | (now, author, stars) :: rest =>
      bind (Comments.addOrUpdateRating now postId stars author)
           (λ _, rate_all postId rest)
  end.

(** The temp path [StorageMove.moveFilesToPost] deletes for an item. *)
Definition temp_path_of (userId : string) (file : MediaItem) : string :=
  "temp/" +:+ userId +:+ "/" +:+ media_id file.

(** The file [StorageMove.moveFilesToPost] uploads for an item whose bytes
    it fetched. *)
Definition refetched (file : MediaItem) (blob : Blob) : Storage.File :=
  {| Storage.file_name := media_filename file; Storage.file_type := blob_type blob;
     Storage.file_size := blob_size blob |}.

(** A file the upload hook accepts under [opts]. *)
Definition hook_accepts (opts : MediaUploadHook.Options) (file : Storage.File) : Prop :=
  Storage.file_type file ∈ MediaUploadHook.allowedTypes opts
  ∧ (Storage.file_size file ≤ MediaUploadHook.maxFileSize opts)%Z.

(** The MIME types both validators allow. *)
Definition types_allowed_by_both : list string :=
  ["image/jpeg"; "image/jpg"; "image/png"; "image/webp"; "image/gif";
   "video/mp4"; "video/webm"].

(** ** Sample data of the further statements *)

(** Three posts, of which the first and the third carry the tag
    [travel]. *)
Definition tagged_post (t : string) (created : Z) (ts : list string) : PostData :=
  {| title := t; content := ""; excerpt := ""; tags := ts; media := [];
     authorId := "author"; authorName := "Author"; authorEmail := "author@example.org";
     createdAt := created; updatedAt := created; viewCount := 0;
     avgRating := 0; totalRatings := 0 |}.

Definition tagged_db : Firestore.Db :=
  {| Firestore.posts :=
       {[ "p1" := tagged_post "Alps" 1 ["travel"; "hiking"];
          "p2" := tagged_post "Bread" 2 ["food"];
          "p3" := tagged_post "Coast" 3 ["travel"] ]};
     Firestore.ratings := [];
     Firestore.next_ref := 0 |}.

(** A rating whose post is gone. *)
Definition orphan_rating : Rating :=
  {| rating_id := 0; rating_postId := "gone"; rating_authorId := "alice";
     rating_value := 4; rating_createdAt := 5 |}.

Definition orphan_db : Firestore.Db :=
  {| Firestore.posts := ∅; Firestore.ratings := [orphan_rating]; Firestore.next_ref := 1 |}.

(** Two posts, each with a rating and a comment. *)
Definition sample_comment (ref : nat) (postId : string) (created : Z) : Comment :=
  {| comment_id := ref; comment_postId := postId; comment_content := "Nice";
     comment_authorId := "alice"; comment_authorName := "Alice";
     comment_authorEmail := "alice@example.org";
     comment_createdAt := created; comment_updatedAt := created |}.

Definition sample_site : CommentStore.Site :=
  {| CommentStore.site_db :=
       {| Firestore.posts := Firestore.posts (sample_db 2);
          Firestore.ratings :=
            [ {| rating_id := 0; rating_postId := "p1"; rating_authorId := "alice";
                 rating_value := 5; rating_createdAt := 3 |};
              {| rating_id := 1; rating_postId := "p2"; rating_authorId := "alice";
                 rating_value := 2; rating_createdAt := 4 |} ];
          Firestore.next_ref := 2 |};
     CommentStore.site_comments := [sample_comment 0 "p1" 5; sample_comment 1 "p2" 6];
     CommentStore.next_comment_ref := 2 |}.

(** A picture in the temp folder of user [u1], the item that stands for it,
    and the outcome of fetching its URL. *)
Definition temp_item : MediaItem :=
  {| media_id := "a.png"; media_url := "https://storage.example/temp/u1/a.png";
     media_type := image; media_filename := "a.png"; media_size := 1;
     media_createdAt := 0 |}.

Definition sample_fetch (url : string) : Result Blob :=
  Ok {| blob_type := "image/png"; blob_size := 1 |}.

(** The clock of the moves: round [i] runs at time [1000 + i]. *)
Definition sample_clock (i : nat) : Z * Z := (1000 + Z.of_nat i, 1000 + Z.of_nat i)%Z.

(** A picture of one byte. *)
Definition picture_file : Storage.File :=
  {| Storage.file_name := "a.png"; Storage.file_type := "image/png";
     Storage.file_size := 1 |}.

(** * Properties *)

(** Unfolding the combinators of the monad. *)
Ltac unfold_M :=
  unfold try_catch, mbind, M_bind, bind, Firestore.reads, throw, ret.

(** ** Generic facts about the monad and the JavaScript helpers *)

Lemma array_includes_elem_of (l : list string) (x : string) :
  JS.array_includes l x = true ↔ x ∈ l.
Proof.
  unfold JS.array_includes. rewrite existsb_exists. split.
  - intros (y & Hy & Heq). apply String.eqb_eq in Heq. subst y.
    by apply list_elem_of_In.
  - intros Hx. exists x. split; [by apply list_elem_of_In | apply String.eqb_refl].
Qed.

Lemma append_cons (c : ascii) (p s : string) :
  String c p +:+ s = String c (p +:+ s).
Proof. reflexivity. Qed.

Lemma append_nil (s : string) : "" +:+ s = s.
Proof. reflexivity. Qed.

Lemma prefix_append (p s : string) :
  String.prefix p s = true ↔ ∃ suf, s = p +:+ suf.
Proof.
  revert s. induction p as [|c p IH]; intros s; simpl.
  - destruct s; split; eauto.
  - destruct s as [|d s]; simpl.
    + split; [done | intros [suf Hs]; discriminate].
    + destruct (ascii_dec c d) as [->|Hne].
      * rewrite IH. split; intros [suf Hs]; exists suf;
          rewrite append_cons in *; congruence.
      * split; [done | intros [suf Hs]; rewrite append_cons in Hs; congruence].
Qed.

Lemma append_assoc (a b c : string) : (a +:+ b) +:+ c = a +:+ b +:+ c.
Proof. induction a as [|x a IH]; [done|]. rewrite !append_cons. by f_equal. Qed.

Lemma append_inj_l (p a b : string) : p +:+ a = p +:+ b → a = b.
Proof.
  induction p as [|x p IH]; [done|]. rewrite !append_cons. intros [=]. auto.
Qed.

(** ** lib/storage *)

Section storage_properties.
Import Storage.
Variable storage : Service.


(** C7: [validateFile] reports an error exactly when the file is larger than
    500 MiB or its MIME type is not one of the allowed image or video types,
    and reports the file valid otherwise.  A file of 501 MiB is rejected
    whatever its type, a JPEG of 499 MiB is accepted, and [text/plain] is
    rejected whatever the size. *)
Theorem validateFile_rejects_exactly :
  (∀ file : File,
     (valid (validateFile file) = false
      ↔ file_size file > 500 * MiB ∨ file_type file ∉ ALLOWED_TYPES)
     ∧ (valid (validateFile file) = true ↔ error (validateFile file) = None))
  ∧ (∀ name type,
       valid (validateFile {| file_name := name; file_type := type;
                              file_size := 501 * MiB |}) = false)
  ∧ (∀ name,
       validateFile {| file_name := name; file_type := "image/jpeg";
                       file_size := 499 * MiB |}
       = {| valid := true; error := None |})
  ∧ (∀ name size,
       valid (validateFile {| file_name := name; file_type := "text/plain";
                              file_size := size |}) = false).
Proof.
  split; [|split; [|split]].
  - intros file. unfold validateFile.
    change MAX_SIZE with (500 * MiB).
    destruct (Z.gtb_spec (file_size file) (500 * MiB)) as [Hbig|Hsmall].
    + simpl. split; [split; [intros _; left; lia | reflexivity]
             | split; intros H; discriminate H].
    + destruct (JS.array_includes ALLOWED_TYPES (file_type file)) eqn:Hin; simpl.
      * apply array_includes_elem_of in Hin.
        split; [split; [intros H; discriminate H | intros [?|?]; [lia | done]]
               | split; reflexivity].
      * split; [split; [intros _; right | reflexivity]
               | split; intros H; discriminate H].
        rewrite <- array_includes_elem_of. congruence.
  - intros name type. reflexivity.
  - intros name. reflexivity.
  - intros name size. unfold validateFile; simpl.
    by destruct (size >? MAX_SIZE).
Qed.


(** C10: [uploadFile] checks neither the size nor the MIME type: whenever
    the blob store accepts the write it returns a media item, for every
    file; the item's type is [image] exactly when the MIME type starts with
    [image/] and [video] for every other MIME type.  So a [text/plain]
    file, which [validateFile] rejects, is uploaded and comes back as a
    [video]. *)
Theorem uploadFile_classifies_by_prefix
    (timestamp created : Z) (file : File) (userId : string)
    (postId : option string) (b : Bucket) :
  upload_fails storage (upload_path timestamp file userId postId) = false →
  ∃ item,
    (uploadFile storage timestamp created file userId postId b).1 = Ok item
    ∧ is_Some ((uploadFile storage timestamp created file userId postId b).2
                 !! upload_path timestamp file userId postId)
    ∧ media_size item = file_size file
    ∧ (media_type item = image ↔ JS.startsWith (file_type file) "image/" = true)
    ∧ (media_type item = video ↔ JS.startsWith (file_type file) "image/" = false)
    ∧ (file_type file = "text/plain" →
       media_type item = video ∧ valid (validateFile file) = false).
Proof.
  intros Hup.
  unfold uploadFile, try_catch, mbind, M_bind, bind, uploadBytes.
  fold (upload_path timestamp file userId postId). rewrite Hup. simpl.
  eexists. split; [reflexivity|]. simpl.
  split; [rewrite lookup_insert_eq; eauto|].
  split; [done|].
  destruct (JS.startsWith (file_type file) "image/") eqn:Hpre.
  - split; [split; reflexivity|].
    split; [split; intros H; discriminate H|].
    intros Htxt. rewrite Htxt in Hpre. discriminate Hpre.
  - split; [split; intros H; discriminate H|].
    split; [split; reflexivity|].
    intros Htxt. split; [reflexivity|].
    unfold validateFile. rewrite Htxt. simpl.
    by destruct (file_size file >? MAX_SIZE).
Qed.


Lemma swept_true (now : Z) (p : string) (m : ObjectMeta) :
  swept storage now p m = true
  ↔ now - timeCreated m > 24 * 60 * 60 * 1000
    ∧ metadata_fails storage p = false ∧ delete_fails storage p = false.
Proof.
  unfold swept, oneDayMs.
  rewrite !andb_true_iff, !negb_true_iff, Z.gtb_ltb, Z.ltb_lt. intuition lia.
Qed.


Lemma for_of_total {St A} (body : A → M St unit) (step : A → St → St) :
  (∀ x s, body x s = (Ok tt, step x s)) →
  ∀ l s, for_of l body s = (Ok tt, foldl (λ s x, step x s) s l).
Proof.
  intros Hbody l. induction l as [|x l IH]; intros s; simpl; [done|].
  unfold bind. rewrite Hbody. apply IH.
Qed.

Lemma sweep_body_step (now : Z) (p : string) (b : Bucket) :
  try_catch
    (metadata ← getFileMetadata storage p;
     let fileTime := timeCreated metadata in
     if now - fileTime >? oneDayMs then deleteFile storage p else ret tt)
    (λ _, ret tt) b
  = (Ok tt, sweep_step storage now p b).
Proof.
  unfold sweep_step, swept, getFileMetadata, getMetadata, deleteFile, deleteObject.
  unfold_M.
  destruct (b !! p) as [m|] eqn:Hp; [|done].
  destruct (metadata_fails storage p); simpl; [done|].
  destruct (now - timeCreated m >? oneDayMs); simpl; [|done].
  rewrite Hp. by destruct (delete_fails storage p).
Qed.

Lemma sweep_lookup (now : Z) (l : list string) (b : Bucket) (p : string) :
  foldl (λ s x, sweep_step storage now x s) b l !! p
  = match b !! p with
    | Some m => if decide (p ∈ l) then if swept storage now p m then None else Some m
                else Some m
    | None => None
    end.
Proof.
  revert b. induction l as [|q l IH]; intros b; simpl.
  - destruct (b !! p); [|done].
    by destruct (decide (p ∈ [])) as [?%not_elem_of_nil|].
  - rewrite IH. unfold sweep_step. destruct (decide (p = q)) as [->|Hne].
    + destruct (b !! q) as [m|] eqn:Hq; [|by rewrite Hq].
      destruct (swept storage now q m) eqn:Hs.
      * rewrite lookup_delete_eq.
        by destruct (decide (q ∈ q :: l)) as [|[]]; [|left].
      * rewrite Hq, Hs. by destruct (decide (q ∈ l)), (decide (q ∈ q :: l)).
    + assert (Hsame : match b !! q with
                      | Some m => if swept storage now q m then delete q b else b
                      | None => b
                      end !! p = b !! p).
      { destruct (b !! q) as [m|]; [|done].
        destruct (swept storage now q m); [|done]. by rewrite lookup_delete_ne. }
      rewrite Hsame. destruct (b !! p) as [m|]; [|done].
      destruct (decide (p ∈ l)) as [Hin|Hnin], (decide (p ∈ q :: l)) as [Hin'|Hnin'];
        try done.
      * destruct Hnin'. by right.
      * apply elem_of_cons in Hin' as [?|?]; done.
Qed.

Lemma behind_append (pre p rest : string) :
  behind pre p = Some rest ↔ p = pre +:+ rest.
Proof.
  revert p. induction pre as [|a pre IH]; intros p.
  - rewrite append_nil. simpl. split; [by intros [= ->] | by intros ->].
  - rewrite append_cons. destruct p as [|c p]; simpl; [done|].
    destruct (Ascii.eqb_spec a c) as [->|Hne].
    + rewrite IH. split; [by intros -> | by intros [= ->]].
    + split; [done | intros [= ? _]; congruence].
Qed.

(** The objects a folder lists: those at [dir/name], for a [name] that is
    not empty and holds no slash. *)
Lemma direct_child_name (dir p : string) :
  direct_child dir p = true
  ↔ ∃ name, p = dir +:+ "/" +:+ name ∧ name ≠ "" ∧ JS.includes name "/" = false.
Proof.
  unfold direct_child. destruct (behind (dir +:+ "/") p) as [name|] eqn:Hname.
  - apply behind_append in Hname. rewrite append_assoc in Hname.
    rewrite andb_true_iff, !negb_true_iff, String.eqb_neq. split.
    + intros [Hne Hslash]. by exists name.
    + intros (name' & Hp & Hne & Hslash). rewrite Hname in Hp.
      apply append_inj_l, append_inj_l in Hp. by subst name'.
  - split; [done|]. intros (name & Hp & _).
    assert (behind (dir +:+ "/") p = Some name); [|congruence].
    apply behind_append. by rewrite append_assoc.
Qed.


Lemma listed_paths (dir : string) (b : Bucket) (p : string) :
  p ∈ filter (λ q, direct_child dir q = true) (map_to_list b).*1
  ↔ direct_child dir p = true ∧ is_Some (b !! p).
Proof.
  rewrite list_elem_of_filter, list_elem_of_fmap. split.
  - intros [Hpre ([q m] & -> & Hqm)]. split; [done|].
    apply elem_of_map_to_list in Hqm. eauto.
  - intros [Hpre [m Hm]]. split; [done|]. exists (p, m). split; [done|].
    by apply elem_of_map_to_list.
Qed.

Lemma cleanupTempFiles_unfold (now : Z) (userId : string) (b : Bucket) :
  cleanupTempFiles storage now userId b
  = (Ok tt,
     if list_fails storage ("temp/" +:+ userId) then b
     else foldl (λ s x, sweep_step storage now x s) b
            (filter (λ q, direct_child ("temp/" +:+ userId) q = true)
                    (map_to_list b).*1)).
Proof.
  unfold cleanupTempFiles, listFiles, listAll, mbind, M_bind.
  set (body := λ filePath : string, try_catch _ _).
  unfold try_catch, bind, throw, ret.
  destruct (list_fails storage ("temp/" +:+ userId)); [done|].
  rewrite (for_of_total body (sweep_step storage now)); [done|].
  intros x s. apply sweep_body_step.
Qed.

(** C8 (amended): for a fixed [now], [cleanupTempFiles] never throws, and it
    removes exactly the objects that lie in the user's temp folder itself,
    at [temp/userId/name] for a [name] without a slash, and were created
    strictly more than 24 hours before [now] (an object exactly 24 hours old
    stays), as far as the store lets it: an object whose metadata cannot be
    fetched or whose delete fails is kept, and that failure has no effect on
    how the other objects are treated; if the listing itself fails nothing
    is removed.  An object in a sub-folder of the temp folder is never
    removed.  Objects are never altered, only removed. *)
Theorem cleanupTempFiles_sweeps_expired (now : Z) (userId : string) (b : Bucket) :
  let result := cleanupTempFiles storage now userId b in
  result.1 = Ok tt
  ∧ ∀ p : string,
      match b !! p with
      | None => result.2 !! p = None
      | Some m =>
          (result.2 !! p = None ∨ result.2 !! p = Some m)
          ∧ (result.2 !! p = None
             ↔ (∃ name, p = "temp/" +:+ userId +:+ "/" +:+ name
                        ∧ name ≠ "" ∧ JS.includes name "/" = false)
               ∧ now - timeCreated m > 24 * 60 * 60 * 1000
               ∧ list_fails storage ("temp/" +:+ userId) = false
               ∧ metadata_fails storage p = false
               ∧ delete_fails storage p = false)
      end.
Proof.
  intros result. subst result. rewrite cleanupTempFiles_unfold. cbn [fst snd].
  split; [done|]. intros p.
  assert (Hchild : direct_child ("temp/" +:+ userId) p = true
                   ↔ ∃ name, p = "temp/" +:+ userId +:+ "/" +:+ name
                             ∧ name ≠ "" ∧ JS.includes name "/" = false).
  { rewrite direct_child_name. by setoid_rewrite append_assoc. }
  destruct (list_fails storage ("temp/" +:+ userId)) eqn:Hlist.
  - destruct (b !! p) as [m|] eqn:Hp; [|done].
    split; [by right|]. split; [done | intros (_ & _ & ? & _); done].
  - rewrite sweep_lookup.
    destruct (b !! p) as [m|] eqn:Hp; [|done].
    destruct (decide (p ∈ _)) as [Hin|Hnin].
    + apply listed_paths in Hin as [Hpre _]. apply Hchild in Hpre.
      destruct (swept storage now p m) eqn:Hs.
      * apply swept_true in Hs as (? & ? & ?). split; [by left|].
        split; [by intros _ | done].
      * split; [by right|]. split; [done|]. intros (_ & ? & _ & ? & ?).
        assert (swept storage now p m = true) by (by apply swept_true). congruence.
    + split; [by right|]. split; [done|]. intros (Hpre & _).
      destruct Hnin. apply listed_paths. split; [by apply Hchild | eauto].
Qed.

End storage_properties.

(** A text file uploaded to a store on which no call fails. *)
Lemma uploadFile_classifies_by_prefix_witness :
  ∃ item,
    (Storage.uploadFile reliable_storage 1700000000000 1700000000005
       text_file "u1" None ∅).1 = Ok item
    ∧ media_id item = "1700000000000-notes.txt"
    ∧ media_type item = video
    ∧ Storage.valid (Storage.validateFile text_file) = false.
Proof.
  destruct (uploadFile_classifies_by_prefix reliable_storage
              1700000000000 1700000000005 text_file "u1" None ∅ eq_refl)
    as (item & H1 & _ & _ & _ & _ & H6).
  exists item. split; [exact H1|].
  split; [by injection H1 as <-|]. by apply H6.
Defined.

(** The sweep on sample data: of the four temp objects of [u1] the two
    created more than 24 hours ago go, the one created exactly 24 hours ago
    and the younger one stay, as do the objects outside the folder; when the
    metadata of one old object cannot be fetched, that object stays and the
    other old object still goes. *)
Example cleanupTempFiles_sample :
  let paths := ["temp/u1/a.png"; "temp/u1/b.png"; "temp/u1/c.png"; "temp/u1/d.png";
                "temp/u10/e.png"; "posts/p1/f.png"] in
  let kept (result : Result unit * Storage.Bucket) :=
    (result.1, (λ p, bool_decide (is_Some (result.2 !! p))) <$> paths) in
  kept (Storage.cleanupTempFiles reliable_storage 100000000 "u1" sample_bucket)
  = (Ok tt, [false; true; true; false; true; true])
  ∧ kept (Storage.cleanupTempFiles (flaky_storage "temp/u1/a.png") 100000000 "u1"
            sample_bucket)
    = (Ok tt, [true; true; true; false; true; true]).
Proof. split; vm_compute; reflexivity. Qed.

(** C8 (as stated) fails: an object in a sub-folder of the user's temp
    folder lies under the user's temp prefix, but the folder's listing does
    not hold it, so the sweep leaves it however old it is. *)
Lemma cleanupTempFiles_subfolder_counterexample :
  let b : Storage.Bucket := {[ "temp/u1/sub/g.png" := object_created 0 ]} in
  String.prefix "temp/u1/" "temp/u1/sub/g.png" = true
  ∧ 100000000 - Storage.timeCreated (object_created 0) > 24 * 60 * 60 * 1000
  ∧ Storage.listFiles reliable_storage "temp/u1" b = (Ok [], b)
  ∧ Storage.cleanupTempFiles reliable_storage 100000000 "u1" b = (Ok tt, b).
Proof. by vm_compute. Qed.

(** ** lib/database *)

Section database_properties.
Import Firestore Database.
Local Open Scope nat_scope.

Lemma ordered_posts_Permutation (s : SortBy) (db : Db) :
  ordered_posts s db ≡ₚ map_to_list (posts db).
Proof. apply merge_sort_Permutation. Qed.

Lemma ordered_posts_NoDup (s : SortBy) (db : Db) :
  NoDup (ordered_posts s db).*1.
Proof.
  rewrite ordered_posts_Permutation. apply NoDup_fst_map_to_list.
Qed.

Lemma ordered_posts_length (s : SortBy) (db : Db) :
  length (ordered_posts s db) = size (posts db).
Proof.
  rewrite ordered_posts_Permutation. apply length_map_to_list.
Qed.

(** In a list without repeated ids, the documents after the one at index
    [i] are the list from index [i + 1] on. *)
Lemma docs_after_drop (l : list DocSnapshot) (i : nat) (c : DocSnapshot) :
  NoDup l.*1 → l !! i = Some c → docs_after c l = drop (S i) l.
Proof.
  revert i. induction l as [|d l IH]; intros i Hnd Hi; [done|].
  apply NoDup_cons in Hnd as [Hd Hnd]. simpl. destruct i as [|i]; simpl in Hi.
  - injection Hi as ->. by rewrite String.eqb_refl.
  - destruct (String.eqb_spec d.1 c.1) as [Heq|Hne].
    + destruct Hd. rewrite Heq. apply list_elem_of_fmap. exists c.
      split; [done|]. by eapply list_elem_of_lookup_2.
    + by apply IH.
Qed.

Lemma pop_extra {A} (k : nat) (l : list A) :
  length l ≤ S k →
  (if (k <? length l)%nat then removelast l else l) = take k l.
Proof.
  intros Hlen. destruct (Nat.ltb_spec k (length l)) as [Hlt|Hge].
  - rewrite removelast_firstn_len. f_equal. lia.
  - by rewrite take_ge.
Qed.

(** What [getPosts] returns, in terms of the snapshot the store hands it. *)
Lemma getPosts_page (options : GetPostsOptions) (db : Db) :
  let limitCount := default 10%nat (opt_limit options) in
  let snapshot := getDocs_posts (default newest (opt_sortBy options))
                    (limitCount + 1) (opt_startAfter options) db in
  getPosts options db
  = {| page_posts := post_of_doc <$> take limitCount snapshot;
       hasMore := (limitCount <? length snapshot)%nat;
       lastDoc := if (limitCount <? length snapshot)%nat
                  then last (take limitCount snapshot) else None |}.
Proof.
  intros k snapshot. unfold getPosts. fold k. fold snapshot.
  assert (Hlen : length snapshot ≤ S k).
  { unfold snapshot, getDocs_posts. rewrite length_take. lia. }
  rewrite length_fmap. f_equal.
  - rewrite <- (length_fmap post_of_doc snapshot).
    rewrite pop_extra by (by rewrite length_fmap). by rewrite fmap_take.
  - destruct (Nat.ltb_spec k (length snapshot)) as [Hlt|Hge]; [|done].
    destruct k as [|i]; [done|].
    rewrite last_lookup, length_take_le by lia. simpl.
    by rewrite lookup_take_lt by lia.
Qed.

(** A page requested with a cursor that leaves [rest] to be listed. *)
Lemma getPosts_rest (s : SortBy) (k : nat) (cursor : option DocSnapshot)
    (db : Db) (rest : list DocSnapshot) :
  match cursor with
  | Some c => docs_after c (ordered_posts s db)
  | None => ordered_posts s db
  end = rest →
  getPosts {| opt_sortBy := Some s; opt_limit := Some k; opt_startAfter := cursor |} db
  = {| page_posts := post_of_doc <$> take k rest;
       hasMore := (k <? length rest)%nat;
       lastDoc := if (k <? length rest)%nat then last (take k rest) else None |}.
Proof.
  intros Hrest. rewrite getPosts_page. simpl. unfold getDocs_posts. rewrite Hrest.
  rewrite take_take, length_take.
  replace (k `min` (k + 1))%nat with k by lia.
  replace (k <? (k + 1) `min` length rest)%nat with (k <? length rest)%nat; [done|].
  destruct (Nat.ltb_spec k (length rest)), (Nat.ltb_spec k ((k + 1) `min` length rest));
    (done || lia).
Qed.

(** A full page: [k] more documents are listed from position [n], and
    others remain; the cursor returned leads to position [n + k]. *)
Lemma getPosts_full_page (s : SortBy) (k n : nat) (cursor : option DocSnapshot)
    (db : Db) :
  match cursor with
  | Some c => docs_after c (ordered_posts s db)
  | None => ordered_posts s db
  end = drop n (ordered_posts s db) →
  1 ≤ k → n + k < size (posts db) →
  ∃ c, getPosts {| opt_sortBy := Some s; opt_limit := Some k; opt_startAfter := cursor |} db
       = {| page_posts := post_of_doc <$> take k (drop n (ordered_posts s db));
            hasMore := true; lastDoc := Some c |}
       ∧ docs_after c (ordered_posts s db) = drop (n + k) (ordered_posts s db).
Proof.
  intros Hrest Hk Hn. rewrite (getPosts_rest _ _ _ _ _ Hrest).
  pose proof (ordered_posts_length s db) as Hlen.
  pose proof (ordered_posts_NoDup s db) as Hnd.
  set (L := ordered_posts s db) in *.
  assert (Hlt : k < length (drop n L)) by (rewrite length_drop; lia).
  apply Nat.ltb_lt in Hlt as Hltb. rewrite Hltb.
  destruct (lookup_lt_is_Some_2 L (n + (k - 1))) as [c Hc]; [lia|].
  assert (Hlast : last (take k (drop n L)) = Some c).
  { rewrite last_lookup, length_take_le by lia.
    rewrite lookup_take_lt by lia. rewrite lookup_drop, <- Hc. f_equal. lia. }
  exists c. rewrite Hlast. split; [done|].
  rewrite (docs_after_drop L (n + (k - 1)) c Hnd Hc). f_equal. lia.
Qed.

(** The last page: at most [k] documents are left from position [n]. *)
Lemma getPosts_last_page (s : SortBy) (k n : nat) (cursor : option DocSnapshot)
    (db : Db) :
  match cursor with
  | Some c => docs_after c (ordered_posts s db)
  | None => ordered_posts s db
  end = drop n (ordered_posts s db) →
  size (posts db) ≤ n + k →
  getPosts {| opt_sortBy := Some s; opt_limit := Some k; opt_startAfter := cursor |} db
  = {| page_posts := post_of_doc <$> drop n (ordered_posts s db);
       hasMore := false; lastDoc := None |}.
Proof.
  intros Hrest Hn. rewrite (getPosts_rest _ _ _ _ _ Hrest).
  pose proof (ordered_posts_length s db) as Hlen.
  set (L := ordered_posts s db) in *.
  assert (Hge : length (drop n L) ≤ k) by (rewrite length_drop; lia).
  apply Nat.ltb_ge in Hge as Hltb. rewrite Hltb. by rewrite take_ge.
Qed.

Lemma take_drop_next {A} (l : list A) (n k : nat) :
  (take k (drop n l) ++ drop (n + k) l)%list = drop n l.
Proof. by rewrite <- drop_drop, take_drop. Qed.

(** C3 (amended): for every page size and cursor, [getPosts] asks the store
    for [limit + 1] documents in the selected order; [hasMore] is true
    exactly when the extra document came back, the page is the snapshot
    without that extra document, and the cursor returned is the last
    document of the page when [hasMore] is true and [null] otherwise.
    Consequently, for a page size [k] of at least 2 and a corpus of
    [k * 3 + 2] posts, following the cursors gives four pages of sizes
    [k, k, k, 2], with [hasMore] true on the first three and false on the
    last; together the pages list the whole corpus in order. *)
Theorem getPosts_paginates (db : Db) (sortBy : SortBy) (k : nat) :
  (∀ options : GetPostsOptions,
     let limitCount := default 10 (opt_limit options) in
     let snapshot := getDocs_posts (default newest (opt_sortBy options))
                       (limitCount + 1) (opt_startAfter options) db in
     let page := getPosts options db in
     length snapshot ≤ limitCount + 1
     ∧ (hasMore page = true ↔ length snapshot = limitCount + 1)
     ∧ page_posts page = post_of_doc <$> take limitCount snapshot
     ∧ lastDoc page = if hasMore page then last (take limitCount snapshot) else None)
  ∧ (2 ≤ k → size (posts db) = k * 3 + 2 →
     let '(p1, p2, p3, p4) := four_pages sortBy k db in
     (length (page_posts p1), length (page_posts p2),
      length (page_posts p3), length (page_posts p4)) = (k, k, k, 2)
     ∧ (hasMore p1, hasMore p2, hasMore p3, hasMore p4) = (true, true, true, false)
     ∧ lastDoc p4 = None
     ∧ (page_posts p1 ++ page_posts p2 ++ page_posts p3 ++ page_posts p4)%list
       = post_of_doc <$> ordered_posts sortBy db).
Proof.
  split.
  - intros options limitCount snapshot page. subst page.
    rewrite getPosts_page. fold limitCount. fold snapshot. cbn [hasMore page_posts lastDoc].
    assert (Hlen : length snapshot ≤ limitCount + 1).
    { unfold snapshot, getDocs_posts. rewrite length_take. lia. }
    split; [done|]. split; [|done].
    rewrite Nat.ltb_lt. lia.
  - intros Hk Hsize. pose proof (ordered_posts_length sortBy db) as Hlen.
    destruct (getPosts_full_page sortBy k 0 None db) as (c1 & E1 & A1);
      [done | lia | lia |].
    destruct (getPosts_full_page sortBy k (0 + k) (Some c1) db) as (c2 & E2 & A2);
      [done | lia | lia |].
    destruct (getPosts_full_page sortBy k (0 + k + k) (Some c2) db) as (c3 & E3 & A3);
      [done | lia | lia |].
    pose proof (getPosts_last_page sortBy k (0 + k + k + k) (Some c3) db A3) as E4.
    unfold four_pages. rewrite E1. cbn [lastDoc]. rewrite E2. cbn [lastDoc].
    rewrite E3. cbn [lastDoc]. rewrite E4 by lia. cbn [lastDoc hasMore page_posts].
    set (L := ordered_posts sortBy db) in *.
    split; [|split; [done|split; [done|]]].
    + rewrite !length_fmap, !length_take, !length_drop. repeat f_equal; lia.
    + rewrite <- !fmap_app. f_equal.
      rewrite !take_drop_next. done.
Qed.

(** C3 (as stated) fails.  With [k = 1] and five posts the fourth page holds
    one post, not two, and announces more; with [k = 0] and two posts every
    page is empty, announces more and returns no cursor; and with [k = 2]
    and eight posts the last page, which is not empty, returns no cursor
    rather than the position of its last post. *)
Lemma getPosts_pages_counterexample :
  (let '(_, _, _, p4) := four_pages newest 1 (sample_db 5) in
   size (posts (sample_db 5)) = 1 * 3 + 2
   ∧ length (page_posts p4) = 1 ∧ hasMore p4 = true)
  ∧ (let '(p1, _, _, p4) := four_pages newest 0 (sample_db 2) in
     size (posts (sample_db 2)) = 0 * 3 + 2
     ∧ page_posts p1 = [] ∧ hasMore p1 = true ∧ lastDoc p1 = None
     ∧ page_posts p4 = [] ∧ hasMore p4 = true)
  ∧ (let '(_, _, _, p4) := four_pages newest 2 (sample_db 8) in
     post_id <$> page_posts p4 = ["p2"; "p1"] ∧ lastDoc p4 = None).
Proof. vm_compute. repeat split. Qed.

(** The four pages of size 2 over the sample corpus of eight posts. *)
Lemma getPosts_paginates_witness :
  let '(p1, p2, p3, p4) := four_pages newest 2 (sample_db 8) in
  (length (page_posts p1), length (page_posts p2),
   length (page_posts p3), length (page_posts p4)) = (2, 2, 2, 2)
  ∧ (hasMore p1, hasMore p2, hasMore p3, hasMore p4) = (true, true, true, false).
Proof.
  pose proof (proj2 (getPosts_paginates (sample_db 8) newest 2)) as H.
  assert (Hk : 2 ≤ 2) by lia.
  assert (Hsize : size (posts (sample_db 8)) = 2 * 3 + 2) by (vm_compute; reflexivity).
  specialize (H Hk Hsize).
  destruct (four_pages newest 2 (sample_db 8)) as [[[p1 p2] p3] p4].
  destruct H as (H1 & H2 & _). split; [exact H1 | exact H2].
Defined.

(** *** Search *)

Lemma prefix_empty (s : string) : String.prefix "" s = true.
Proof. by destruct s. Qed.

Lemma includes_substring (s t : string) :
  JS.includes s t = true ↔ substring_of t s.
Proof.
  unfold substring_of. induction s as [|c s IH].
  - change (JS.includes "" t) with (String.prefix t "" || false).
    rewrite orb_false_r, prefix_append. split.
    + intros [suf Hs]. by exists "", suf.
    + intros (pre & suf & Hs). destruct pre; [|discriminate Hs]. eauto.
  - change (JS.includes (String c s) t)
      with (String.prefix t (String c s) || JS.includes s t).
    rewrite orb_true_iff, IH, prefix_append. split.
    + intros [[suf Hs]|(pre & suf & Hs)].
      * by exists "", suf.
      * exists (String c pre), suf. rewrite append_cons. by f_equal.
    + intros (pre & suf & Hs). destruct pre as [|d pre].
      * left. eauto.
      * right. rewrite append_cons in Hs. injection Hs as _ Hs. eauto.
Qed.

Lemma split_nonempty (sep : ascii) (s : string) : JS.split sep s ≠ [].
Proof.
  destruct s as [|c s]; simpl; [done|].
  destruct (Ascii.eqb c sep); [done|]. by destruct (JS.split sep s).
Qed.

(** Joining the pieces of [split] with the separator gives the string
    back, and no piece contains the separator. *)
Lemma join_split (sep : ascii) (s : string) :
  JS.join (String sep "") (JS.split sep s) = s.
Proof.
  unfold JS.join. induction s as [|c s IH]; [done|]. simpl.
  pose proof (split_nonempty sep s) as Hne.
  destruct (Ascii.eqb_spec c sep) as [->|Hc].
  - simpl. destruct (JS.split sep s) as [|t ts]; [done|].
    rewrite append_nil, append_cons, append_nil. by f_equal.
  - destruct (JS.split sep s) as [|t ts]; [done|]. simpl in *.
    destruct ts; [by f_equal|]. rewrite append_cons. by f_equal.
Qed.

Lemma split_pieces_no_sep (sep : ascii) (s t : string) :
  t ∈ JS.split sep s → ¬ substring_of (String sep "") t.
Proof.
  revert t. induction s as [|c s IH]; intros t; simpl.
  - intros ->%list_elem_of_singleton (pre & suf & Hs).
    destruct pre; discriminate Hs.
  - pose proof (split_nonempty sep s) as Hne.
    destruct (Ascii.eqb_spec c sep) as [->|Hc].
    + intros [->|Ht]%elem_of_cons; [|by apply IH].
      intros (pre & suf & Hs). destruct pre; discriminate Hs.
    + destruct (JS.split sep s) as [|t0 ts]; [done|].
      intros [->|Ht]%elem_of_cons; [|apply IH; by right].
      intros (pre & suf & Hs). destruct pre as [|d pre].
      * rewrite append_nil, append_cons in Hs. congruence.
      * rewrite append_cons in Hs. injection Hs as _ Hs.
        apply (IH t0); [by left|]. by exists pre, suf.
Qed.

Lemma toLowerCase_spaces (n : nat) : JS.toLowerCase (spaces n) = spaces n.
Proof. induction n as [|n IH]; [done|]. simpl. by rewrite IH. Qed.

Lemma split_spaces_head (n : nat) : ∃ ts, JS.split " " (spaces n) = "" :: ts.
Proof. destruct n; simpl; eauto. Qed.

Lemma filter_sublist {A} (f : A → bool) (l : list A) : List.filter f l `sublist_of` l.
Proof.
  induction l as [|x l IH]; simpl; [done|].
  destruct (f x); [by apply sublist_skip | by apply sublist_cons].
Qed.

Lemma search_batch_eq (db : Db) :
  search_batch db = post_of_doc <$> take 100 (ordered_posts newest db).
Proof.
  unfold search_batch. rewrite getPosts_page. cbn [page_posts opt_limit opt_sortBy
    opt_startAfter default]. unfold getDocs_posts. by rewrite take_take.
Qed.

Lemma search_batch_length (db : Db) : length (search_batch db) ≤ 100.
Proof. rewrite search_batch_eq, length_fmap, length_take. lia. Qed.

(** C6 (amended): [searchPosts] takes the first page of at most 100 posts,
    newest first, lower-cases the query and, for each post, the text
    [title content excerpt tags] (joined by spaces), splits the query at
    each space character (and at no other whitespace; a piece may be empty)
    and returns, in the order of the batch, exactly the posts in whose text
    at least one piece occurs.  This holds of every query and every text,
    whatever [toLowerCase] makes of them.  On the posts titled
    [Alpha Trip], [Beta Notes] and [Gamma], the query [alpha beta] returns
    exactly the first two. *)
Theorem searchPosts_any_token (toLowerCase : string → string) (searchQuery : string)
    (db : Db) :
  search_batch db = post_of_doc <$> take 100 (ordered_posts newest db)
  ∧ length (search_batch db) ≤ 100
  ∧ searchPosts_with toLowerCase searchQuery db `sublist_of` search_batch db
  ∧ (∀ post : BlogPost,
       post ∈ searchPosts_with toLowerCase searchQuery db
       ↔ post ∈ search_batch db
         ∧ ∃ term, term ∈ JS.split " " (toLowerCase searchQuery)
                   ∧ substring_of term
                       (toLowerCase (title post +:+ " " +:+ content post +:+ " "
                                     +:+ excerpt post +:+ " " +:+ JS.join " " (tags post))))
  ∧ post_id <$> searchPosts "alpha beta" search_db = ["p2"; "p1"]
  ∧ title <$> (post_fields <$> searchPosts "alpha beta" search_db)
    = ["Beta Notes"; "Alpha Trip"].
Proof.
  split; [apply search_batch_eq|]. split; [apply search_batch_length|].
  split; [apply filter_sublist|]. split; [|by vm_compute].
  intros post. unfold searchPosts_with, searchContent_with. fold (search_batch db).
  rewrite list_elem_of_In, filter_In, existsb_exists, <- list_elem_of_In.
  apply and_iff_compat_l. split.
  - intros (term & Hin & Hinc). exists term.
    split; [by apply list_elem_of_In | by apply includes_substring].
  - intros (term & Hin & Hsub). exists term.
    split; [by apply list_elem_of_In | by apply includes_substring].
Qed.

(** C6 (as stated) fails: a tab is whitespace, but the query
    [alpha<TAB>beta] is one search term for [searchPosts], which finds
    nothing, where a split on whitespace finds the two posts. *)
Lemma searchPosts_whitespace_counterexample :
  searchPosts tab_query search_db = []
  ∧ post_id <$> searchPosts_on_whitespace tab_query search_db = ["p2"; "p1"].
Proof. by vm_compute. Qed.

(** C9: for the empty query, and for a query made of spaces only,
    [searchPosts] returns the whole batch it fetched (at most 100 posts):
    splitting such a query yields the empty string as a term, and the empty
    string occurs in every text. *)
Theorem searchPosts_blank_query (n : nat) (db : Db) :
  searchPosts (spaces n) db = search_batch db
  ∧ length (searchPosts (spaces n) db) ≤ 100
  ∧ JS.split " " "" = [""]
  ∧ "" ∈ JS.split " " (JS.toLowerCase (spaces n))
  ∧ ∀ text : string, JS.includes text "" = true.
Proof.
  assert (Hinc : ∀ text : string, JS.includes text "" = true).
  { intros text. destruct text; simpl; by rewrite ?prefix_empty. }
  destruct (split_spaces_head n) as [ts Hts].
  assert (Hall : searchPosts (spaces n) db = search_batch db).
  { unfold searchPosts, searchPosts_with. fold (search_batch db).
    rewrite toLowerCase_spaces, Hts. apply forallb_filter_id.
    apply forallb_forall. intros post _. simpl. by rewrite Hinc. }
  split; [done|]. split; [rewrite Hall; apply search_batch_length|].
  split; [done|]. split; [|done].
  rewrite toLowerCase_spaces, Hts. by left.
Qed.

End database_properties.

(** ** lib/comments *)

Section comments_properties.
Import Firestore Comments.
Local Open Scope Z_scope.

Lemma filter_filter_nil {A} (f g : A → bool) (l : list A) :
  List.filter f l = [] → List.filter f (List.filter g l) = [].
Proof.
  induction l as [|x l IH]; simpl; [done|].
  destruct (f x) eqn:Hf; [done|]. intros Hl.
  destruct (g x); simpl; rewrite ?Hf; auto.
Qed.

Lemma filter_filter_length {A} (f g : A → bool) (l : list A) :
  (length (List.filter f (List.filter g l)) ≤ length (List.filter f l))%nat.
Proof.
  induction l as [|x l IH]; simpl; [done|].
  destruct (g x), (f x) eqn:Hf; simpl; rewrite ?Hf; simpl; lia.
Qed.

Lemma filter_filter_comm {A} (f g : A → bool) (l : list A) :
  List.filter f (List.filter g l) = List.filter g (List.filter f l).
Proof.
  induction l as [|x l IH]; simpl; [done|].
  destruct (g x) eqn:Hg, (f x) eqn:Hf; simpl; rewrite ?Hg, ?Hf, ?IH; done.
Qed.

Lemma filter_map_stable {A} (f : A → bool) (g : A → A) (l : list A) :
  (∀ x, f (g x) = f x) → List.filter f (map g l) = map g (List.filter f l).
Proof.
  intros Hfg. induction l as [|x l IH]; simpl; [done|].
  rewrite Hfg. destruct (f x); simpl; by rewrite IH.
Qed.

Lemma same_pair_restamp (p a : string) (ref : nat) (value now : Z) (r : Rating) :
  same_pair p a (restamp ref value now r) = same_pair p a r.
Proof. unfold restamp. by destruct (rating_id r =? ref)%nat. Qed.

(** *** The aggregates *)

(** [Math.round] gives the integer nearest to its argument, halves going
    up. *)
Lemma Math_round_nearest (x : Q) :
  (inject_Z (JS.Math_round x) <= x + (1 # 2))%Q
  ∧ (x + (1 # 2) < inject_Z (JS.Math_round x) + 1)%Q.
Proof.
  unfold JS.Math_round. split; [apply Qfloor_le|].
  pose proof (Qlt_floor (x + (1 # 2))) as Hlt.
  by rewrite inject_Z_plus in Hlt.
Qed.

(** The stored average is [round(mean * 10) / 10]. *)
Lemma rounded_average_value (rs : list Rating) :
  (rounded_average rs
   == inject_Z (JS.Math_round
        (inject_Z (foldl (λ sum r, (sum + rating_value r)%Z) 0%Z rs)
         / inject_Z (Z.of_nat (length rs)) * 10)) / 10)%Q.
Proof. unfold rounded_average. apply Qred_correct. Qed.

Lemma sum_ratings_Permutation (l l' : list Rating) :
  l ≡ₚ l' →
  ∀ a, foldl (λ sum r, sum + rating_value r) a l
       = foldl (λ sum r, sum + rating_value r) a l'.
Proof.
  induction 1 as [|x l l' _ IH|x y l|l l' l'' _ IH1 _ IH2]; intros a; simpl.
  - done.
  - apply IH.
  - f_equal. lia.
  - by rewrite IH1.
Qed.

(** The order in which the ratings are listed has no effect on the
    aggregates, so the sort in [getPostRatings] is immaterial to them. *)
Lemma aggregates_of_getPostRatings (postId : string) (db : Db) :
  aggregates_of (getPostRatings postId db)
  = aggregates_of (query_ratings (λ r, String.eqb (rating_postId r) postId) db).
Proof.
  unfold getPostRatings.
  pose proof (merge_sort_Permutation newer_first
    (query_ratings (λ r, String.eqb (rating_postId r) postId) db)) as Hperm.
  unfold aggregates_of, rounded_average.
  by rewrite (Permutation_length Hperm), (sum_ratings_Permutation _ _ Hperm).
Qed.

Lemma updatePostRating_run (postId : string) (db : Db) :
  updatePostRating postId db
  = match posts db !! postId with
    | Some d =>
        let agg := aggregates_of (getPostRatings postId db) in
        (Ok tt, set_posts (<[postId := set_aggregates agg.1 agg.2 d]> (posts db)) db)
    | None => (Err (NotFound postId), db)
    end.
Proof.
  unfold updatePostRating, aggregates_of, updateDoc_post. unfold_M.
  destruct (length (getPostRatings postId db) =? 0)%nat;
    by destruct (posts db !! postId).
Qed.

(** What one call of [addOrUpdateRating] does on an existing post: the
    aggregates are computed from the ratings as they were before the call,
    then the staged write is applied. *)
Lemma addOrUpdateRating_run (now : Z) (postId : string) (value : Z)
    (authorId : string) (db : Db) (d : PostData) :
  posts db !! postId = Some d →
  addOrUpdateRating now postId value authorId db
  = (Ok tt,
     let agg := aggregates_of (getPostRatings postId db) in
     {| posts := <[postId := set_aggregates agg.1 agg.2 d]> (posts db);
        ratings :=
          match query_ratings (same_pair postId authorId) db with
          | ratingDoc :: _ => map (restamp (rating_id ratingDoc) value now) (ratings db)
          | [] =>
              List.filter (λ r, negb (rating_id r =? next_ref db)%nat) (ratings db)
              ++ [{| rating_id := next_ref db; rating_postId := postId;
                     rating_authorId := authorId; rating_value := value;
                     rating_createdAt := now |}]
          end;
        next_ref :=
          match query_ratings (same_pair postId authorId) db with
          | _ :: _ => next_ref db
          | [] => S (next_ref db)
          end |}).
Proof.
  intros Hd. unfold addOrUpdateRating.
  unfold try_catch at 1. unfold mbind, M_bind. unfold bind at 1. unfold reads at 1.
  destruct (query_ratings (same_pair postId authorId) db) as [|ratingDoc rest] eqn:Hq.
  - unfold bind, new_rating_ref, ret. rewrite updatePostRating_run. simpl. rewrite Hd.
    unfold commit, set_ratings, set_posts. simpl. done.
  - unfold bind, ret. rewrite updatePostRating_run. rewrite Hd.
    unfold commit, set_ratings, set_posts. simpl. done.
Qed.

(** C1 (evaluation of the code): a rating is not counted by the call that
    submits it.  After the first rating of a post (5 stars) the rating row
    is stored but the post still has [totalRatings = 0] and [avgRating = 0];
    after three ratings by three authors (5, 4 and 3 stars) the post has
    [totalRatings = 2] and [avgRating = 4.5], the aggregates of the first
    two, where the three ratings have count 3 and mean 4. *)
Theorem addOrUpdateRating_misses_own_rating :
  let one := addOrUpdateRating 10 "p1" 5 "alice" (sample_db 1) in
  let two := addOrUpdateRating 20 "p1" 4 "bob" one.2 in
  let three := addOrUpdateRating 30 "p1" 3 "carol" two.2 in
  (one.1, two.1, three.1) = (Ok tt, Ok tt, Ok tt)
  ∧ rating_value <$> ratings one.2 = [5]
  ∧ post_aggregates "p1" one.2 = Some (0%Q, 0)
  ∧ rating_value <$> ratings three.2 = [5; 4; 3]
  ∧ post_aggregates "p1" three.2 = Some (9 # 2, 2)
  ∧ aggregates_of (getPostRatings "p1" three.2) = (4%Q, 3).
Proof. by vm_compute. Qed.

(** The defect behind it, in general: on an existing post the aggregates
    written by [addOrUpdateRating] are those of the ratings stored before
    the call. *)
Lemma addOrUpdateRating_stale_aggregates (now : Z) (postId : string) (value : Z)
    (authorId : string) (db : Db) :
  is_Some (posts db !! postId) →
  post_aggregates postId (addOrUpdateRating now postId value authorId db).2
  = Some (aggregates_of (getPostRatings postId db)).
Proof.
  intros [d Hd]. rewrite (addOrUpdateRating_run _ _ _ _ _ d Hd).
  unfold post_aggregates. cbn [snd posts]. rewrite lookup_insert_eq. simpl.
  by destruct (aggregates_of _).
Qed.

(** C2 (as stated) fails: 7 stars are outside 1..5, yet the call succeeds
    and the rating is stored. *)
Lemma addOrUpdateRating_out_of_range_counterexample :
  let result := addOrUpdateRating 10 "p1" 7 "alice" (sample_db 1) in
  ¬ (1 ≤ 7 ≤ 5)
  ∧ result.1 = Ok tt
  ∧ ratings (sample_db 1) = []
  ∧ ratings result.2
    = [{| rating_id := 0; rating_postId := "p1"; rating_authorId := "alice";
          rating_value := 7; rating_createdAt := 10 |}].
Proof. split; [lia | by vm_compute]. Qed.

(** C2 (amended): [addOrUpdateRating] does not check the range of the
    rating: for every value, inside 1..5 or not, a call on an existing post
    completes without an error, and afterwards the rating stored for the
    (post, author) pair holds that value and the time of the call. *)
Theorem addOrUpdateRating_accepts_any_value (now : Z) (postId : string)
    (stars : Z) (authorId : string) (db : Db) :
  is_Some (posts db !! postId) →
  let result := addOrUpdateRating now postId stars authorId db in
  result.1 = Ok tt
  ∧ ∃ row, head (query_ratings (same_pair postId authorId) result.2) = Some row
           ∧ rating_value row = stars
           ∧ rating_createdAt row = now.
Proof.
  intros [d Hd] result. subst result.
  rewrite (addOrUpdateRating_run _ _ _ _ _ d Hd). cbn [fst snd].
  split; [done|]. unfold query_ratings at 1. cbn [ratings].
  destruct (query_ratings (same_pair postId authorId) db) as [|row rest] eqn:Hq.
  - rewrite List.filter_app. unfold query_ratings in Hq.
    rewrite (filter_filter_nil _ _ _ Hq). simpl.
    unfold same_pair at 1. simpl. rewrite !String.eqb_refl. simpl. eauto.
  - rewrite filter_map_stable by (intros; apply same_pair_restamp).
    unfold query_ratings in Hq. rewrite Hq. simpl.
    unfold restamp. rewrite Nat.eqb_refl. eauto.
Qed.

(** Seven stars on the sample post. *)
Lemma addOrUpdateRating_accepts_any_value_witness :
  let result := addOrUpdateRating 10 "p1" 7 "alice" (sample_db 1) in
  result.1 = Ok tt
  ∧ ∃ row, head (query_ratings (same_pair "p1" "alice") result.2) = Some row
           ∧ rating_value row = 7
           ∧ rating_createdAt row = 10.
Proof.
  apply (addOrUpdateRating_accepts_any_value 10 "p1" 7 "alice" (sample_db 1)).
  vm_compute. eauto.
Defined.

(** The rows themselves stay unique: [addOrUpdateRating] and [deleteRating]
    preserve the invariant that a (post, author) pair has at most one
    rating. *)
Lemma same_pair_true (p a : string) (r : Rating) :
  same_pair p a r = true ↔ rating_postId r = p ∧ rating_authorId r = a.
Proof.
  unfold same_pair. by rewrite andb_true_iff, !String.eqb_eq.
Qed.

Lemma addOrUpdateRating_keeps_pairs_unique (now : Z) (postId : string)
    (value : Z) (authorId : string) (db : Db) :
  is_Some (posts db !! postId) →
  one_rating_per_pair db →
  one_rating_per_pair (addOrUpdateRating now postId value authorId db).2.
Proof.
  intros [d Hd] Hinv p a. rewrite (addOrUpdateRating_run _ _ _ _ _ d Hd).
  unfold query_ratings at 1. cbn [snd ratings].
  destruct (query_ratings (same_pair postId authorId) db) as [|row rest] eqn:Hq.
  - rewrite List.filter_app, length_app. simpl.
    destruct (same_pair p a _) eqn:Hsame.
    + apply same_pair_true in Hsame as [<- <-]. simpl.
      unfold query_ratings in Hq. rewrite (filter_filter_nil _ _ _ Hq). simpl. lia.
    + simpl. pose proof (filter_filter_length (same_pair p a)
        (λ r, negb (rating_id r =? next_ref db)%nat) (ratings db)).
      specialize (Hinv p a). unfold query_ratings in Hinv. lia.
  - rewrite filter_map_stable by (intros; apply same_pair_restamp).
    rewrite length_map. apply Hinv.
Qed.

Lemma deleteRating_keeps_pairs_unique (postId authorId : string) (db : Db) :
  one_rating_per_pair db → one_rating_per_pair (deleteRating postId authorId db).2.
Proof.
  intros Hinv p a. unfold deleteRating. unfold_M.
  destruct (query_ratings (same_pair postId authorId) db) as [|row rest] eqn:Hq;
    [apply Hinv|].
  unfold deleteDoc_rating. rewrite updatePostRating_run. cbn [posts set_ratings].
  specialize (Hinv p a). unfold query_ratings in *.
  pose proof (filter_filter_length (same_pair p a)
    (λ r, negb (rating_id r =? rating_id row)%nat) (ratings db)).
  destruct (posts db !! postId); unfold throw; cbn [snd ratings set_posts set_ratings]; lia.
Qed.

(** C4 (evaluation of the code): a second rating by the same author
    overwrites the stored row, so there is one row before and after; but the
    post's [totalRatings] goes from 0 to 1 on that second call, and its
    [avgRating] becomes 3, the value that was overwritten, while the stored
    rating is 5. *)
Theorem rerating_raises_totalRatings :
  let first := addOrUpdateRating 10 "p1" 3 "alice" (sample_db 1) in
  let again := addOrUpdateRating 20 "p1" 5 "alice" first.2 in
  (first.1, again.1) = (Ok tt, Ok tt)
  ∧ ratings first.2
    = [{| rating_id := 0; rating_postId := "p1"; rating_authorId := "alice";
          rating_value := 3; rating_createdAt := 10 |}]
  ∧ ratings again.2
    = [{| rating_id := 0; rating_postId := "p1"; rating_authorId := "alice";
          rating_value := 5; rating_createdAt := 20 |}]
  ∧ post_aggregates "p1" first.2 = Some (0%Q, 0)
  ∧ post_aggregates "p1" again.2 = Some (3%Q, 1).
Proof. by vm_compute. Qed.

(** C5 (as stated) fails: when the pair has no rating, [deleteRating] does
    nothing at all, so it does not recompute.  After alice's rating the post
    still carries the aggregates (0, 0); [deleteRating] for bob, who has not
    rated, leaves the database as it is, where a recompute stores (5, 1). *)
Lemma deleteRating_skips_recompute_counterexample :
  let db1 := (addOrUpdateRating 10 "p1" 5 "alice" (sample_db 1)).2 in
  query_ratings (same_pair "p1" "bob") db1 = []
  ∧ deleteRating "p1" "bob" db1 = (Ok tt, db1)
  ∧ post_aggregates "p1" (deleteRating "p1" "bob" db1).2 = Some (0%Q, 0)
  ∧ post_aggregates "p1" (updatePostRating "p1" db1).2 = Some (5%Q, 1).
Proof. by vm_compute. Qed.

(** C5 (amended): [deleteRating] deletes the rating of the (post, author)
    pair if there is one and then recomputes the post's aggregates from the
    ratings that remain; if there is none it does nothing, and in
    particular does not recompute.  Removing the last remaining rating of a
    post sets [avgRating = 0] and [totalRatings = 0]; whenever no ratings
    remain the recompute stores 0 in both fields and divides nothing. *)
Theorem deleteRating_deletes_then_recomputes (postId authorId : string) (db : Db) :
  (query_ratings (same_pair postId authorId) db = [] →
   deleteRating postId authorId db = (Ok tt, db))
  ∧ (∀ row rest,
       query_ratings (same_pair postId authorId) db = row :: rest →
       is_Some (posts db !! postId) →
       let result := deleteRating postId authorId db in
       result.1 = Ok tt
       ∧ ratings result.2
         = List.filter (λ r, negb (rating_id r =? rating_id row)%nat) (ratings db)
       ∧ post_aggregates postId result.2
         = Some (aggregates_of (getPostRatings postId result.2))
       ∧ (query_ratings (λ r, String.eqb (rating_postId r) postId) db = [row] →
          post_aggregates postId result.2 = Some (0%Q, 0)))
  ∧ (is_Some (posts db !! postId) →
     getPostRatings postId db = [] →
     (updatePostRating postId db).1 = Ok tt
     ∧ post_aggregates postId (updatePostRating postId db).2 = Some (0%Q, 0)).
Proof.
  split; [|split].
  - intros Hq. unfold deleteRating. unfold_M. by rewrite Hq.
  - intros row rest Hq [d Hd] result.
    assert (Hrun : result
      = (Ok tt,
         let db' := set_ratings
           (List.filter (λ r, negb (rating_id r =? rating_id row)%nat) (ratings db)) db in
         let agg := aggregates_of (getPostRatings postId db') in
         set_posts (<[postId := set_aggregates agg.1 agg.2 d]> (posts db')) db')).
    { unfold result, deleteRating. unfold_M. rewrite Hq. unfold deleteDoc_rating. rewrite updatePostRating_run.
      cbn [posts set_ratings]. by rewrite Hd. }
    rewrite Hrun. cbn [fst snd]. split; [done|]. split; [done|].
    assert (Hagg : ∀ rs, post_aggregates postId
        (set_posts (<[postId := set_aggregates (aggregates_of rs).1 (aggregates_of rs).2 d]>
                      (posts db)) (set_ratings
           (List.filter (λ r, negb (rating_id r =? rating_id row)%nat) (ratings db)) db))
        = Some (aggregates_of rs)).
    { intros rs. unfold post_aggregates. cbn [posts set_posts].
      rewrite lookup_insert_eq. simpl. by destruct (aggregates_of rs). }
    split.
    + cbv zeta. cbn [posts set_ratings]. by rewrite Hagg.
    + intros Hlast. cbv zeta. cbn [posts set_ratings]. rewrite Hagg. f_equal.
      unfold getPostRatings, query_ratings in *. cbn [ratings set_ratings].
      rewrite filter_filter_comm, Hlast. simpl. by rewrite Nat.eqb_refl.
  - intros [d Hd] Hnone. rewrite updatePostRating_run, Hd, Hnone.
    split; [done|]. unfold post_aggregates. cbn [snd posts set_posts].
    by rewrite lookup_insert_eq.
Qed.

(** Removing the only rating of the sample post. *)
Lemma deleteRating_deletes_then_recomputes_witness :
  let db1 := (addOrUpdateRating 10 "p1" 5 "alice" (sample_db 1)).2 in
  let result := deleteRating "p1" "alice" db1 in
  result.1 = Ok tt
  ∧ ratings result.2 = []
  ∧ post_aggregates "p1" result.2 = Some (0%Q, 0).
Proof.
  destruct (deleteRating_deletes_then_recomputes "p1" "alice"
              (addOrUpdateRating 10 "p1" 5 "alice" (sample_db 1)).2) as (_ & H & _).
  edestruct (H {| rating_id := 0; rating_postId := "p1"; rating_authorId := "alice";
                  rating_value := 5; rating_createdAt := 10 |} [])
    as (H1 & H2 & _ & H4).
  - vm_compute. reflexivity.
  - vm_compute. eauto.
  - split; [exact H1|]. split; [exact H2|]. apply H4. vm_compute. reflexivity.
Defined.

End comments_properties.

(** * Properties of the rest of the service layer *)

(** ** lib/database, continued *)

Section post_store_properties.
Import Firestore Database PostStore.
Local Open Scope Z_scope.

(** X1: [createPost] stores the post under an id that was free and returns
    that id; [getPost] on it then gives the post back, with the input's
    title, content, excerpt and tags, the author, the two time stamps, no
    media, no views and no ratings.  The other posts and the ratings are
    untouched. *)
Theorem createPost_then_getPost (created updated : Z) (postData : BlogPostInput)
    (author name mail : string) (db : Db) :
  let result := createPost created updated postData author name mail db in
  ∃ id,
    result.1 = Ok id
    ∧ posts db !! id = None
    ∧ getPost id result.2
      = (Ok (Some {| post_id := id;
                     post_fields :=
                       {| title := input_title postData; content := input_content postData;
                          excerpt := input_excerpt postData; tags := input_tags postData;
                          media := []; authorId := author; authorName := name;
                          authorEmail := mail; createdAt := created; updatedAt := updated;
                          viewCount := 0; avgRating := 0; totalRatings := 0 |} |}),
         result.2)
    ∧ (∀ other, other ≠ id → posts result.2 !! other = posts db !! other)
    ∧ ratings result.2 = ratings db.
Proof.
  intros result. subst result. unfold createPost, addDoc_post. unfold_M.
  exists (fresh (dom (posts db))). cbn [fst snd].
  split; [done|]. split.
  { apply not_elem_of_dom. apply is_fresh. }
  split.
  { unfold getPost. unfold_M. cbn [posts set_posts]. by rewrite lookup_insert_eq. }
  split; [|done].
  intros other Hother. cbn [posts set_posts]. by rewrite lookup_insert_ne.
Qed.

Lemma same_but_views_refl (d : PostData) : same_but_views d d.
Proof. by repeat split. Qed.

Lemma incrementViewCount_run (postId : string) (db : Db) :
  incrementViewCount postId db
  = match posts db !! postId with
    | Some d => (Ok tt, set_posts (<[postId := add_view d]> (posts db)) db)
    | None => (Err (NotFound postId), db)
    end.
Proof.
  unfold incrementViewCount, updateDoc_post. unfold_M.
  by destruct (posts db !! postId).
Qed.

(** X2: [incrementViewCount] adds exactly one view and changes nothing else:
    after [n] calls on an existing post its view count is [n] higher, its
    other fields, the other posts and the ratings are as before.  On a
    missing post it fails with a not-found error and leaves the database as
    it is. *)
Theorem incrementViewCount_counts (postId : string) (db : Db) (n : nat) :
  match posts db !! postId with
  | None => incrementViewCount postId db = (Err (NotFound postId), db)
  | Some d =>
      let result := times n (incrementViewCount postId) db in
      result.1 = Ok tt
      ∧ (∃ d', posts result.2 !! postId = Some d'
               ∧ viewCount d' = viewCount d + Z.of_nat n
               ∧ same_but_views d d')
      ∧ (∀ other, other ≠ postId → posts result.2 !! other = posts db !! other)
      ∧ ratings result.2 = ratings db
  end.
Proof.
  destruct (posts db !! postId) as [d|] eqn:Hd;
    [|by rewrite incrementViewCount_run, Hd].
  revert db d Hd. induction n as [|n IH]; intros db d Hd; simpl.
  - split; [done|]. split; [|done].
    exists d. split; [done|]. split; [lia | apply same_but_views_refl].
  - unfold bind. rewrite incrementViewCount_run, Hd.
    specialize (IH (set_posts (<[postId := add_view d]> (posts db)) db) (add_view d)).
    cbn [posts set_posts] in IH. rewrite lookup_insert_eq in IH.
    destruct (IH eq_refl) as (Hok & (d' & Hd' & Hviews & Hsame) & Hother & Hratings).
    split; [done|]. split; [|split].
    + exists d'. split; [done|]. split.
      * rewrite Hviews. simpl. lia.
      * unfold same_but_views, add_view in *. simpl in *. tauto.
    + intros other Hne. rewrite Hother by done. by rewrite lookup_insert_ne.
    + by rewrite Hratings.
Qed.

(** X3: [updatePost] changes the fields present in the update and
    [updatedAt], and nothing else: the post keeps its view count, its rating
    aggregates, its author and its creation time, the other posts and the
    ratings are untouched.  On a missing post it fails with a not-found
    error and leaves the database as it is. *)
Theorem updatePost_keeps_the_rest (now : Z) (postId : string) (updates : PostUpdates)
    (db : Db) :
  match posts db !! postId with
  | None => updatePost now postId updates db = (Err (NotFound postId), db)
  | Some d =>
      let result := updatePost now postId updates db in
      result.1 = Ok tt
      ∧ (∃ d', posts result.2 !! postId = Some d'
               ∧ title d' = default (title d) (upd_title updates)
               ∧ content d' = default (content d) (upd_content updates)
               ∧ excerpt d' = default (excerpt d) (upd_excerpt updates)
               ∧ tags d' = default (tags d) (upd_tags updates)
               ∧ media d' = default (media d) (upd_media updates)
               ∧ updatedAt d' = now
               ∧ (viewCount d', avgRating d', totalRatings d', createdAt d')
                 = (viewCount d, avgRating d, totalRatings d, createdAt d)
               ∧ (authorId d', authorName d', authorEmail d')
                 = (authorId d, authorName d, authorEmail d))
      ∧ (∀ other, other ≠ postId → posts result.2 !! other = posts db !! other)
      ∧ ratings result.2 = ratings db
  end.
Proof.
  unfold updatePost, updateDoc_post. unfold_M.
  destruct (posts db !! postId) as [d|] eqn:Hd; [|done].
  cbn [fst snd posts set_posts ratings]. split; [done|]. split; [|split; [|done]].
  - exists (apply_updates updates now d). by rewrite lookup_insert_eq.
  - intros other Hne. by rewrite lookup_insert_ne.
Qed.

(** *** Order of the post queries *)

Lemma orderBy_total (s : SortBy) (a b : DocSnapshot) :
  Is_true (orderBy_leb s a b) ∨ Is_true (orderBy_leb s b a).
Proof.
  destruct s; simpl; rewrite ?Is_true_true, ?Z.leb_le, ?Qle_bool_iff; try lia.
  destruct (Qlt_le_dec (avgRating a.2) (avgRating b.2)) as [Hlt|Hle];
    [right; by apply Qlt_le_weak | by left].
Qed.

Lemma orderBy_trans (s : SortBy) (a b c : DocSnapshot) :
  Is_true (orderBy_leb s a b) → Is_true (orderBy_leb s b c) →
  Is_true (orderBy_leb s a c).
Proof.
  destruct s; simpl; rewrite ?Is_true_true, ?Z.leb_le, ?Qle_bool_iff; try lia.
  intros Hab Hbc. by eapply Qle_trans.
Qed.

Lemma ordered_posts_sorted (s : SortBy) (db : Db) :
  StronglySorted (λ a b, Is_true (orderBy_leb s a b)) (ordered_posts s db).
Proof.
  unfold ordered_posts. apply StronglySorted_merge_sort.
  - intros a b c. apply orderBy_trans.
  - intros a b. apply orderBy_total.
Qed.

Lemma StronglySorted_sublist {A} (R : relation A) (l1 l2 : list A) :
  l1 `sublist_of` l2 → StronglySorted R l2 → StronglySorted R l1.
Proof.
  induction 1 as [|x l1 l2 Hsub IH|x l1 l2 Hsub IH]; intros Hsorted; [done|..].
  - apply StronglySorted_cons in Hsorted as [Hall Hl2].
    apply StronglySorted_cons. split; [|by apply IH].
    rewrite Forall_forall in *. intros y Hy. apply Hall.
    by eapply elem_of_sublist.
  - apply StronglySorted_cons in Hsorted as [_ Hl2]. by apply IH.
Qed.

Lemma docs_after_sublist (c : DocSnapshot) (l : list DocSnapshot) :
  docs_after c l `sublist_of` l.
Proof.
  induction l as [|d l IH]; simpl; [done|].
  destruct (String.eqb d.1 c.1); by apply sublist_cons.
Qed.

Lemma getDocs_posts_sublist (s : SortBy) (n : nat) (cursor : option DocSnapshot)
    (db : Db) :
  getDocs_posts s n cursor db `sublist_of` ordered_posts s db.
Proof.
  unfold getDocs_posts. etrans; [apply sublist_take|].
  destruct cursor; [apply docs_after_sublist | done].
Qed.

Lemma in_order_fmap (s : SortBy) (l : list DocSnapshot) :
  StronglySorted (λ a b, Is_true (orderBy_leb s a b)) l →
  StronglySorted (in_order s) (post_of_doc <$> l).
Proof.
  induction 1 as [|[id d] l _ IH Hall]; simpl; constructor; [done|].
  rewrite Forall_fmap. eapply Forall_impl; [exact Hall|].
  by intros [id' d'].
Qed.

Lemma elem_of_ordered_posts (s : SortBy) (db : Db) (id : string) (d : PostData) :
  (id, d) ∈ ordered_posts s db ↔ posts db !! id = Some d.
Proof. rewrite ordered_posts_Permutation. apply elem_of_map_to_list. Qed.

Lemma post_of_doc_ids (l : list DocSnapshot) : post_id <$> (post_of_doc <$> l) = l.*1.
Proof. rewrite <- list_fmap_compose. by apply list_fmap_ext. Qed.

Lemma elem_of_post_of_doc (l : list DocSnapshot) (post : BlogPost) :
  post ∈ post_of_doc <$> l ↔ (post_id post, post_fields post) ∈ l.
Proof.
  rewrite list_elem_of_fmap. split.
  - by intros ([id d] & -> & Hin).
  - intros Hin. exists (post_id post, post_fields post). split; [by destruct post | done].
Qed.

Lemma sublist_ids_NoDup (l1 l2 : list DocSnapshot) :
  l1 `sublist_of` l2 → NoDup l2.*1 → NoDup l1.*1.
Proof.
  intros Hsub Hnd. eapply sublist_NoDup; [exact Hnd | by apply fmap_sublist].
Qed.

(** X4: whatever the options and the cursor, a page of [getPosts] is in the
    selected order, holds at most [limit] posts, holds no post twice, and
    every post on it is a stored post with its stored fields. *)
Theorem getPosts_page_in_order (options : GetPostsOptions) (db : Db) :
  let page := page_posts (getPosts options db) in
  StronglySorted (in_order (default newest (opt_sortBy options))) page
  ∧ (length page ≤ default 10 (opt_limit options))%nat
  ∧ NoDup (post_id <$> page)
  ∧ ∀ post : BlogPost, post ∈ page → posts db !! post_id post = Some (post_fields post).
Proof.
  intros page. subst page. rewrite getPosts_page. cbn [page_posts].
  set (s := default newest (opt_sortBy options)).
  set (k := default 10%nat (opt_limit options)).
  set (snapshot := getDocs_posts s (k + 1) (opt_startAfter options) db).
  assert (Hsub : take k snapshot `sublist_of` ordered_posts s db).
  { etrans; [apply sublist_take | apply getDocs_posts_sublist]. }
  split; [|split; [|split]].
  - apply in_order_fmap. eapply StronglySorted_sublist; [exact Hsub|].
    apply ordered_posts_sorted.
  - rewrite length_fmap, length_take. lia.
  - rewrite post_of_doc_ids. eapply sublist_ids_NoDup; [exact Hsub|].
    apply ordered_posts_NoDup.
  - intros post Hin. apply elem_of_post_of_doc in Hin.
    apply (elem_of_ordered_posts s). by eapply elem_of_sublist.
Qed.

Lemma List_filter_Permutation {A} (f : A → bool) (l l' : list A) :
  l ≡ₚ l' → List.filter f l ≡ₚ List.filter f l'.
Proof.
  induction 1 as [|x l l' _ IH|x y l|l l' l'' _ IH1 _ IH2]; simpl.
  - done.
  - destruct (f x); by rewrite IH.
  - destruct (f x), (f y); (done || apply perm_swap).
  - by etrans.
Qed.

(** X5: [getPostsByTag] returns at most 50 posts, newest first and without
    repetition; each of them is a stored post that carries the tag; and when
    no more than 50 stored posts carry the tag it returns all of them.  It
    does not change the database. *)
Theorem getPostsByTag_sound_and_complete (tag : string) (db : Db) :
  ∃ result,
    getPostsByTag tag db = (Ok result, db)
    ∧ (length result ≤ 50)%nat
    ∧ StronglySorted (λ a b : BlogPost, createdAt b ≤ createdAt a) result
    ∧ NoDup (post_id <$> result)
    ∧ (∀ post : BlogPost, post ∈ result →
         tag ∈ tags post ∧ posts db !! post_id post = Some (post_fields post))
    ∧ ((length (List.filter (λ d : DocSnapshot, JS.array_includes (tags d.2) tag)
                            (map_to_list (posts db))) ≤ 50)%nat →
       ∀ id d, posts db !! id = Some d → tag ∈ tags d →
               {| post_id := id; post_fields := d |} ∈ result).
Proof.
  unfold getPostsByTag. unfold_M. eexists. split; [reflexivity|].
  set (tagged := List.filter (λ d : DocSnapshot, JS.array_includes (tags d.2) tag)
                             (ordered_posts newest db)).
  assert (Hsub : take 50 tagged `sublist_of` ordered_posts newest db).
  { etrans; [apply sublist_take | apply filter_sublist]. }
  split; [rewrite length_fmap, length_take; lia|]. split; [|split; [|split]].
  - assert (Hsorted : StronglySorted (in_order newest) (post_of_doc <$> take 50 tagged)).
    { apply in_order_fmap. eapply StronglySorted_sublist; [exact Hsub|].
      apply ordered_posts_sorted. }
    eapply StronglySorted_sublist in Hsorted; [|reflexivity].
    induction Hsorted as [|x l _ IH Hall]; constructor; [done|].
    eapply Forall_impl; [exact Hall|]. intros y. unfold in_order. simpl.
    rewrite Is_true_true. apply Z.leb_le.
  - rewrite post_of_doc_ids. eapply sublist_ids_NoDup; [exact Hsub|].
    apply ordered_posts_NoDup.
  - intros post Hin. apply elem_of_post_of_doc in Hin. split.
    + pose proof (elem_of_sublist _ _ _ Hin (sublist_take _ _)) as Hin'.
      apply list_elem_of_In, filter_In in Hin' as [_ Htag].
      by apply array_includes_elem_of in Htag.
    + apply (elem_of_ordered_posts newest). by eapply elem_of_sublist.
  - intros Hfew id d Hd Htag. apply elem_of_post_of_doc. simpl.
    rewrite take_ge.
    + apply list_elem_of_In, filter_In. split.
      * apply list_elem_of_In. by apply elem_of_ordered_posts.
      * by apply array_includes_elem_of.
    + unfold tagged.
      rewrite (Permutation_length
                 (List_filter_Permutation _ _ _ (ordered_posts_Permutation newest db))).
      exact Hfew.
Qed.

End post_store_properties.

(** ** hooks/use-posts *)

Section posts_hook_properties.
Import Firestore Database PostsHook.
Local Open Scope nat_scope.

Lemma limit_or_12_positive (limit : option nat) : 1 ≤ limit_or_12 limit.
Proof. destruct limit as [[|k]|]; simpl; lia. Qed.

Lemma getPosts_default_sort (sortBy : option SortBy) (k : nat)
    (cursor : option DocSnapshot) (db : Db) :
  getPosts {| opt_sortBy := sortBy; opt_limit := Some k; opt_startAfter := cursor |} db
  = getPosts {| opt_sortBy := Some (default newest sortBy); opt_limit := Some k;
                opt_startAfter := cursor |} db.
Proof. by destruct sortBy. Qed.

(** The pages fetched from position [i] of the ordered posts on. *)
Lemma fetch_pages_from (options : HookOptions) (db : Db) (more i : nat)
    (cursor : option DocSnapshot) :
  let k := limit_or_12 (hook_limit options) in
  let L := ordered_posts (default newest (hook_sortBy options)) db in
  match cursor with
  | Some c => docs_after c L
  | None => L
  end = drop i L →
  size (posts db) - i ≤ (more + 1) * k →
  concat (page_posts <$> fetch_pages options db more cursor) = post_of_doc <$> drop i L
  ∧ Forall (λ page, length (page_posts page) ≤ k) (fetch_pages options db more cursor)
  ∧ fetch_pages options db (S more) cursor = fetch_pages options db more cursor.
Proof.
  intros k L. revert i cursor.
  pose proof (limit_or_12_positive (hook_limit options)) as Hk. fold k in Hk.
  induction more as [|more IH]; intros i cursor Hrest Hfuel.
  - assert (Hlast : size (posts db) ≤ i + k) by lia.
    pose proof (getPosts_last_page _ k i cursor db Hrest Hlast) as Hpage.
    rewrite <- getPosts_default_sort in Hpage. fold L in Hpage.
    cbn [fetch_pages]. unfold queryFn. fold k. rewrite Hpage.
    cbn [getNextPageParam hasMore]. simpl.
    rewrite app_nil_r. split; [done|]. split; [|done].
    constructor; [|done]. cbn [page_posts].
    rewrite length_fmap, length_drop. unfold L. rewrite ordered_posts_length. lia.
  - destruct (decide (size (posts db) ≤ i + k)) as [Hlast|Hfull].
    + pose proof (getPosts_last_page _ k i cursor db Hrest Hlast) as Hpage.
      rewrite <- getPosts_default_sort in Hpage. fold L in Hpage.
      cbn [fetch_pages]. unfold queryFn. fold k. rewrite Hpage.
      cbn [getNextPageParam hasMore]. simpl.
      rewrite app_nil_r. split; [done|]. split; [|done].
      constructor; [|done]. cbn [page_posts].
      rewrite length_fmap, length_drop. unfold L. rewrite ordered_posts_length. lia.
    + destruct (getPosts_full_page _ k i cursor db Hrest Hk) as (c & Hpage & Hafter);
        [lia|].
      rewrite <- getPosts_default_sort in Hpage. fold L in Hpage, Hafter.
      destruct (IH (i + k) (Some c) Hafter) as (Hconcat & Hall & Hstable); [nia|].
      change (fetch_pages options db (S (S more)) cursor)
        with (queryFn options cursor db
              :: match getNextPageParam (queryFn options cursor db) with
                 | Some next => fetch_pages options db (S more) (Some next)
                 | None => []
                 end).
      change (fetch_pages options db (S more) cursor)
        with (queryFn options cursor db
              :: match getNextPageParam (queryFn options cursor db) with
                 | Some next => fetch_pages options db more (Some next)
                 | None => []
                 end).
      unfold queryFn. fold k. rewrite Hpage. cbn [getNextPageParam hasMore lastDoc].
      split; [|split].
      * rewrite fmap_cons. cbn [concat page_posts]. rewrite Hconcat.
        rewrite <- fmap_app. f_equal. apply take_drop_next.
      * constructor; [|done]. cbn [page_posts]. rewrite length_fmap, length_take. lia.
      * by rewrite Hstable.
Qed.

(** X6: the infinite query of [useInfinitePosts] lists every post.  Its page
    size is the given limit, or 12 when the limit is absent or 0, so it is
    never 0; once [fetchNextPage] has been called often enough for the
    number of posts, the pages together hold exactly the stored posts, each
    once, in the selected order; no page holds more than the page size; and
    a further [fetchNextPage] fetches nothing. *)
Theorem useInfinitePosts_lists_every_post (options : HookOptions) (db : Db) (more : nat) :
  let k := limit_or_12 (hook_limit options) in
  let s := default newest (hook_sortBy options) in
  let pages := useInfinitePosts options db more in
  let listed := concat (page_posts <$> pages) in
  size (posts db) ≤ (more + 1) * k →
  1 ≤ k
  ∧ listed = post_of_doc <$> ordered_posts s db
  ∧ StronglySorted (in_order s) listed
  ∧ NoDup (post_id <$> listed)
  ∧ (∀ id d, posts db !! id = Some d ↔ {| post_id := id; post_fields := d |} ∈ listed)
  ∧ Forall (λ page, length (page_posts page) ≤ k) pages
  ∧ useInfinitePosts options db (S more) = pages.
Proof.
  intros k s pages listed Hfuel.
  destruct (fetch_pages_from options db more 0 None) as (Hconcat & Hall & Hstable);
    [done | fold k; lia |].
  fold k s in Hconcat, Hall. rewrite drop_0 in Hconcat.
  split; [apply limit_or_12_positive|].
  split; [exact Hconcat|]. unfold listed, pages, useInfinitePosts. rewrite Hconcat.
  split; [apply in_order_fmap, ordered_posts_sorted|].
  split; [rewrite post_of_doc_ids; apply ordered_posts_NoDup|].
  split; [|split; [exact Hall | exact Hstable]].
  intros id d. rewrite elem_of_post_of_doc. simpl. symmetry.
  apply elem_of_ordered_posts.
Qed.

End posts_hook_properties.

(** ** lib/comments, continued *)

Section rating_query_properties.
Import Firestore Comments CommentStore.
Local Open Scope Z_scope.

Lemma NoDup_fmap_eq {A B} (f : A → B) (l : list A) (x y : A) :
  NoDup (f <$> l) → x ∈ l → y ∈ l → f x = f y → x = y.
Proof.
  induction l as [|z l IH]; simpl; [by intros _ ?%not_elem_of_nil|].
  intros [Hz Hnd]%NoDup_cons [->|Hx]%elem_of_cons [->|Hy]%elem_of_cons Heq.
  - done.
  - destruct Hz. rewrite Heq. by apply list_elem_of_fmap_2.
  - destruct Hz. rewrite <- Heq. by apply list_elem_of_fmap_2.
  - by apply IH.
Qed.

Lemma filter_all {A} (f : A → bool) (l : list A) :
  Forall (λ x, f x = true) l → List.filter f l = l.
Proof.
  induction 1 as [|x l Hx _ IH]; simpl; [done|]. by rewrite Hx, IH.
Qed.

Lemma map_id_on {A} (f : A → A) (l : list A) :
  Forall (λ x, f x = x) l → map f l = l.
Proof. induction 1 as [|x l Hx _ IH]; simpl; [done|]. by rewrite Hx, IH. Qed.

Lemma filter_fresh_ref (db : Db) :
  rating_refs_wf db →
  List.filter (λ r, negb (rating_id r =? next_ref db)%nat) (ratings db) = ratings db.
Proof.
  intros [_ Hlt]. apply filter_all. eapply Forall_impl; [exact Hlt|].
  intros r Hr. simpl in Hr. apply negb_true_iff, Nat.eqb_neq. lia.
Qed.

Lemma getUserRating_run (postId authorId : string) (db : Db) :
  getUserRating postId authorId db
  = (Ok (rating_value <$> head (query_ratings (same_pair postId authorId) db)), db).
Proof.
  unfold getUserRating. unfold_M.
  by destruct (query_ratings (same_pair postId authorId) db).
Qed.

(** The rating documents after a call of [addOrUpdateRating] on an existing
    post, for a store with well-formed references. *)
Lemma addOrUpdateRating_ratings (now : Z) (postId : string) (value : Z)
    (authorId : string) (db : Db) :
  is_Some (posts db !! postId) → rating_refs_wf db →
  ratings (addOrUpdateRating now postId value authorId db).2
  = match query_ratings (same_pair postId authorId) db with
    | ratingDoc :: _ => map (restamp (rating_id ratingDoc) value now) (ratings db)
    | [] => (ratings db
             ++ [{| rating_id := next_ref db; rating_postId := postId;
                    rating_authorId := authorId; rating_value := value;
                    rating_createdAt := now |}])%list
    end.
Proof.
  intros [d Hd] Hwf. rewrite (addOrUpdateRating_run _ _ _ _ _ d Hd). cbn [snd ratings].
  destruct (query_ratings (same_pair postId authorId) db); [|done].
  by rewrite filter_fresh_ref.
Qed.

Lemma restamp_ids (ref : nat) (value t : Z) (l : list Rating) :
  rating_id <$> map (restamp ref value t) l = rating_id <$> l.
Proof.
  induction l as [|r l IH]; [done|]. cbn [map]. rewrite !fmap_cons, IH. f_equal.
  unfold restamp. by destruct (rating_id r =? ref)%nat.
Qed.

Lemma addOrUpdateRating_refs_wf (now : Z) (postId : string) (value : Z)
    (authorId : string) (db : Db) :
  is_Some (posts db !! postId) → rating_refs_wf db →
  rating_refs_wf (addOrUpdateRating now postId value authorId db).2.
Proof.
  intros Hpost Hwf. pose proof (addOrUpdateRating_ratings now postId value authorId db
    Hpost Hwf) as Hratings.
  destruct Hpost as [d Hd]. destruct Hwf as [Hnd Hlt].
  unfold rating_refs_wf. rewrite Hratings.
  rewrite (addOrUpdateRating_run _ _ _ _ _ d Hd). cbn [snd next_ref].
  destruct (query_ratings (same_pair postId authorId) db) as [|row rest].
  - split.
    + rewrite fmap_app. simpl. apply NoDup_app. split; [done|]. split; [|apply NoDup_singleton].
      intros ref Href ->%list_elem_of_singleton.
      apply list_elem_of_fmap in Href as (r & Heq & Hr).
      rewrite Forall_forall in Hlt. specialize (Hlt r Hr). simpl in Hlt. lia.
    + apply Forall_app. split.
      * eapply Forall_impl; [exact Hlt|]. intros r Hr. simpl in *. lia.
      * constructor; [simpl; lia | done].
  - split; [by rewrite restamp_ids|].
    rewrite Forall_forall in *. intros r' Hr'.
    apply list_elem_of_In, in_map_iff in Hr' as (r & <- & Hr).
    apply list_elem_of_In, Hlt in Hr. unfold restamp.
    by destruct (rating_id r =? rating_id row)%nat.
Qed.

(** X7: after [addOrUpdateRating] on an existing post, [getUserRating] for
    that post and author gives the value just submitted, and the ratings
    every other (post, author) pair gets from [getUserRating] are what they
    were. *)
Theorem getUserRating_after_addOrUpdateRating (now : Z) (postId : string) (stars : Z)
    (authorId : string) (db : Db) :
  is_Some (posts db !! postId) → rating_refs_wf db →
  let db' := (addOrUpdateRating now postId stars authorId db).2 in
  getUserRating postId authorId db' = (Ok (Some stars), db')
  ∧ ∀ post author, (post, author) ≠ (postId, authorId) →
      (getUserRating post author db').1 = (getUserRating post author db).1.
Proof.
  intros Hpost Hwf db'. rewrite !getUserRating_run.
  assert (Hratings := addOrUpdateRating_ratings now postId stars authorId db Hpost Hwf).
  fold db' in Hratings. unfold query_ratings at 1. rewrite Hratings.
  destruct Hwf as [Hnd _].
  destruct (query_ratings (same_pair postId authorId) db) as [|row rest] eqn:Hq.
  - split.
    + rewrite List.filter_app. unfold query_ratings in Hq. rewrite Hq. simpl.
      unfold same_pair at 1. simpl. by rewrite !String.eqb_refl.
    + intros post author Hne. rewrite !getUserRating_run. cbn [fst]. f_equal. f_equal.
      unfold query_ratings. rewrite Hratings, List.filter_app. simpl.
      destruct (same_pair post author _) eqn:Hsame; [|by rewrite app_nil_r].
      apply same_pair_true in Hsame as [<- <-]. by destruct Hne.
  - split.
    + rewrite filter_map_stable by (intros; apply same_pair_restamp).
      unfold query_ratings in Hq. rewrite Hq. simpl.
      unfold restamp. by rewrite Nat.eqb_refl.
    + intros post author Hne. rewrite !getUserRating_run. cbn [fst]. f_equal. f_equal.
      unfold query_ratings. rewrite Hratings.
      rewrite filter_map_stable by (intros; apply same_pair_restamp).
      f_equal. apply map_id_on. apply Forall_forall. intros r Hr.
      apply list_elem_of_In, filter_In in Hr as [Hr Hsame].
      apply same_pair_true in Hsame as [Hp Ha].
      unfold restamp. destruct (Nat.eqb_spec (rating_id r) (rating_id row)) as [Heq|]; [|done].
      assert (Hrow : In row (List.filter (same_pair postId authorId) (ratings db))).
      { unfold query_ratings in Hq. rewrite Hq. by left. }
      apply filter_In in Hrow as [Hrow Hsame]. apply same_pair_true in Hsame as [Hp' Ha'].
      assert (r = row) as ->.
      { eapply (NoDup_fmap_eq rating_id); eauto; by apply list_elem_of_In. }
      destruct Hne. congruence.
Qed.

(** X8: in a store with at most one rating per (post, author) pair, after
    [deleteRating] the author has no rating of the post: [getUserRating]
    gives [null], whether or not [deleteRating] itself completed. *)
Theorem getUserRating_after_deleteRating (postId authorId : string) (db : Db) :
  one_rating_per_pair db →
  let db' := (deleteRating postId authorId db).2 in
  getUserRating postId authorId db' = (Ok None, db').
Proof.
  intros Hinv db'. rewrite getUserRating_run.
  assert (Hnone : query_ratings (same_pair postId authorId) db' = []); [|by rewrite Hnone].
  unfold db', deleteRating. unfold_M.
  specialize (Hinv postId authorId).
  destruct (query_ratings (same_pair postId authorId) db) as [|row rest] eqn:Hq; [done|].
  destruct rest; [|simpl in Hinv; lia].
  unfold deleteDoc_rating. rewrite updatePostRating_run. cbn [posts set_ratings].
  assert (Hgone : List.filter (same_pair postId authorId)
            (List.filter (λ r, negb (rating_id r =? rating_id row)%nat) (ratings db)) = []).
  { unfold query_ratings in Hq. rewrite filter_filter_comm, Hq. simpl.
    by rewrite Nat.eqb_refl. }
  by destruct (posts db !! postId).
Qed.

(** X9: on a post that does not exist [addOrUpdateRating] fails with a
    not-found error and writes nothing: the posts and the rating documents
    are as before. *)
Theorem addOrUpdateRating_missing_post (now : Z) (postId : string) (stars : Z)
    (authorId : string) (db : Db) :
  posts db !! postId = None →
  let result := addOrUpdateRating now postId stars authorId db in
  result.1 = Err (NotFound postId)
  ∧ ratings result.2 = ratings db
  ∧ posts result.2 = posts db.
Proof.
  intros Hnone result.
  assert (Hrun : result
    = (Err (NotFound postId),
       match query_ratings (same_pair postId authorId) db with
       | [] => {| posts := posts db; ratings := ratings db; next_ref := S (next_ref db) |}
       | _ :: _ => db
       end)).
  { unfold result, addOrUpdateRating.
    unfold try_catch at 1. unfold mbind, M_bind. unfold bind at 1. unfold reads at 1.
    destruct (query_ratings (same_pair postId authorId) db).
    - unfold bind, new_rating_ref, ret, throw. rewrite updatePostRating_run. simpl.
      by rewrite Hnone.
    - unfold bind, ret, throw. rewrite updatePostRating_run. by rewrite Hnone. }
  rewrite Hrun. by destruct (query_ratings (same_pair postId authorId) db).
Qed.

(** X10: [deleteRating] is not atomic.  When the author has a rating of a
    post that no longer exists, the rating document is deleted first and the
    recompute then fails: the call ends in a not-found error, and the rating
    is gone all the same. *)
Theorem deleteRating_missing_post (postId authorId : string) (db : Db)
    (row : Rating) (rest : list Rating) :
  posts db !! postId = None →
  query_ratings (same_pair postId authorId) db = row :: rest →
  let result := deleteRating postId authorId db in
  result.1 = Err (NotFound postId)
  ∧ ratings result.2
    = List.filter (λ r, negb (rating_id r =? rating_id row)%nat) (ratings db)
  ∧ row ∉ ratings result.2.
Proof.
  intros Hnone Hq result. subst result. unfold deleteRating. unfold_M. rewrite Hq.
  unfold deleteDoc_rating. rewrite updatePostRating_run. cbn [posts set_ratings].
  rewrite Hnone. cbn [fst snd ratings]. split; [done|]. split; [done|].
  intros Hin. apply list_elem_of_In, filter_In in Hin as [_ Hid].
  by rewrite Nat.eqb_refl in Hid.
Qed.

(** After a call on an existing post the author has a rating of the post. *)
Lemma addOrUpdateRating_keeps_own_row (now : Z) (postId : string) (value : Z)
    (authorId : string) (db : Db) :
  is_Some (posts db !! postId) →
  ∃ row, row ∈ ratings (addOrUpdateRating now postId value authorId db).2
         ∧ rating_postId row = postId.
Proof.
  intros [d Hd]. rewrite (addOrUpdateRating_run _ _ _ _ _ d Hd). cbn [snd ratings].
  destruct (query_ratings (same_pair postId authorId) db) as [|row rest] eqn:Hq.
  - eexists. split; [apply elem_of_app; right; by left | done].
  - assert (Hrow : In row (List.filter (same_pair postId authorId) (ratings db))).
    { unfold query_ratings in Hq. rewrite Hq. by left. }
    apply filter_In in Hrow as [Hrow Hsame]. apply same_pair_true in Hsame as [Hp _].
    exists (restamp (rating_id row) value now row). split.
    + apply list_elem_of_In, in_map. exact Hrow.
    + unfold restamp. by destruct (rating_id row =? rating_id row)%nat.
Qed.

Lemma addOrUpdateRating_missing_run (now : Z) (postId : string) (value : Z)
    (authorId : string) (db : Db) :
  posts db !! postId = None →
  (addOrUpdateRating now postId value authorId db).1 = Err (NotFound postId).
Proof.
  intros Hnone. unfold addOrUpdateRating.
  unfold try_catch at 1. unfold mbind, M_bind. unfold bind at 1. unfold reads at 1.
  destruct (query_ratings (same_pair postId authorId) db).
  - unfold bind, new_rating_ref, ret, throw. rewrite updatePostRating_run. simpl.
    by rewrite Hnone.
  - unfold bind, ret, throw. rewrite updatePostRating_run. by rewrite Hnone.
Qed.

Lemma getPostRatings_length (postId : string) (db : Db) :
  length (getPostRatings postId db)
  = length (List.filter (λ r, String.eqb (rating_postId r) postId) (ratings db)).
Proof. apply Permutation_length, merge_sort_Permutation. Qed.

Lemma aggregates_of_total (rs : list Rating) :
  (aggregates_of rs).2 = Z.of_nat (length rs).
Proof. unfold aggregates_of. by destruct rs. Qed.

Lemma addOrUpdateRating_posts (now : Z) (postId : string) (value : Z)
    (authorId : string) (db : Db) :
  is_Some (posts db !! postId) →
  is_Some (posts (addOrUpdateRating now postId value authorId db).2 !! postId)
  ∧ (addOrUpdateRating now postId value authorId db).1 = Ok tt.
Proof.
  intros [d Hd]. rewrite (addOrUpdateRating_run _ _ _ _ _ d Hd). cbn [fst snd posts].
  rewrite lookup_insert_eq. eauto.
Qed.

(** X11: the stored count lags one rating behind.  When authors who have not
    rated a post yet rate it one after the other, every call succeeds and
    each adds one rating document, but after the last call the post's
    [totalRatings] is one less than the number of its ratings. *)
Theorem rate_all_totalRatings_lags (postId : string) (votes : list (Z * string * Z))
    (db : Db) :
  is_Some (posts db !! postId) → rating_refs_wf db →
  NoDup (votes.*1.*2) →
  (∀ author, author ∈ votes.*1.*2 →
     query_ratings (same_pair postId author) db = []) →
  votes ≠ [] →
  let result := rate_all postId votes db in
  result.1 = Ok tt
  ∧ length (getPostRatings postId result.2)
    = (length (getPostRatings postId db) + length votes)%nat
  ∧ snd <$> post_aggregates postId result.2
    = Some (Z.of_nat (length (getPostRatings postId db) + length votes) - 1).
Proof.
  revert db. induction votes as [|[[now author] stars] votes IH];
    intros db Hpost Hwf Hnd Hnew Hne; [done|].
  cbn [rate_all]. unfold bind.
  pose proof (addOrUpdateRating_posts now postId stars author db Hpost) as [Hpost1 Hok].
  pose proof (addOrUpdateRating_refs_wf now postId stars author db Hpost Hwf) as Hwf1.
  pose proof (addOrUpdateRating_ratings now postId stars author db Hpost Hwf) as Hratings.
  pose proof (addOrUpdateRating_stale_aggregates now postId stars author db Hpost) as Hagg.
  rewrite (Hnew author) in Hratings by (simpl; left).
  destruct (addOrUpdateRating now postId stars author db) as [r db1]. simpl in *.
  subst r.
  assert (Hrows : length (getPostRatings postId db1)
                  = S (length (getPostRatings postId db))).
  { rewrite !getPostRatings_length, Hratings, List.filter_app, length_app. simpl.
    rewrite String.eqb_refl. simpl. lia. }
  apply NoDup_cons in Hnd as [Hauthor Hnd].
  destruct votes as [|vote votes'].
  - simpl. split; [done|]. split; [lia|].
    rewrite Hagg. simpl. rewrite aggregates_of_total. f_equal. lia.
  - destruct (IH db1) as (H1 & H2 & H3); try done.
    + intros a Ha. unfold query_ratings. rewrite Hratings, List.filter_app.
      unfold query_ratings in Hnew. rewrite (Hnew a) by (by right). simpl.
      destruct (same_pair postId a _) eqn:Hsame; [|done].
      apply same_pair_true in Hsame as [_ Heq]. simpl in Heq. subst a. done.
    + split; [done|]. split.
      * rewrite H2, Hrows. simpl. lia.
      * rewrite H3, Hrows. f_equal. simpl length. lia.
Qed.

Lemma newer_first_total (a b : Rating) : newer_first a b ∨ newer_first b a.
Proof. unfold newer_first. lia. Qed.

Lemma newer_first_trans (a b c : Rating) :
  newer_first a b → newer_first b c → newer_first a c.
Proof. unfold newer_first. lia. Qed.

(** X12: [getPostRatings] returns the ratings of the post and only those,
    each as often as it is stored, ordered from the newest to the oldest. *)
Theorem getPostRatings_newest_first (postId : string) (db : Db) :
  getPostRatings postId db
  ≡ₚ List.filter (λ r, String.eqb (rating_postId r) postId) (ratings db)
  ∧ StronglySorted (λ a b, rating_createdAt b ≤ rating_createdAt a)
                   (getPostRatings postId db)
  ∧ ∀ r, r ∈ getPostRatings postId db ↔ r ∈ ratings db ∧ rating_postId r = postId.
Proof.
  assert (Hperm : getPostRatings postId db
    ≡ₚ List.filter (λ r, String.eqb (rating_postId r) postId) (ratings db))
    by apply merge_sort_Permutation.
  split; [exact Hperm|]. split.
  - assert (Transitive newer_first) by (intros a b c; apply newer_first_trans).
    assert (Total newer_first) by (intros a b; apply newer_first_total).
    apply (StronglySorted_merge_sort newer_first).
  - intros r. rewrite Hperm, list_elem_of_In, filter_In, String.eqb_eq.
    by rewrite <- list_elem_of_In.
Qed.

End rating_query_properties.

(** ** components: the rating section *)

Section rating_section_properties.
Import Firestore Comments RatingSection.
Local Open Scope Z_scope.

(** X13: what the rating widget shows after a rating.  Without a signed-in
    user, or while a submission is in progress, [handleRatingSubmit] does
    nothing.  On a missing post the failure of [addOrUpdateRating] is
    swallowed and [onRatingUpdate] is not called.  On an existing post
    [onRatingUpdate] receives the aggregates of the ratings as they are
    stored after the call, the new rating included, while the post document
    holds the aggregates of the ratings before the call. *)
Theorem handleRatingSubmit_reports_stored_ratings (now : Z) (user : option string)
    (submitting : bool) (postId : string) (stars : Z) (db : Db) :
  match user with
  | None => handleRatingSubmit now user submitting postId stars db = (Ok None, db)
  | Some uid =>
      if submitting
      then handleRatingSubmit now user submitting postId stars db = (Ok None, db)
      else
        let result := handleRatingSubmit now user submitting postId stars db in
        result.2 = (addOrUpdateRating now postId stars uid db).2
        ∧ match posts db !! postId with
          | None => result.1 = Ok None
          | Some _ =>
              result.1 = Ok (Some (aggregates_of (getPostRatings postId result.2)))
              ∧ post_aggregates postId result.2
                = Some (aggregates_of (getPostRatings postId db))
              ∧ (0 < length (getPostRatings postId result.2))%nat
          end
  end.
Proof.
  destruct user as [uid|]; [|done]. destruct submitting; [done|].
  intros result. subst result. unfold handleRatingSubmit. unfold_M.
  destruct (posts db !! postId) as [d|] eqn:Hd.
  - pose proof (addOrUpdateRating_stale_aggregates now postId stars uid db
                  (ex_intro _ d Hd)) as Hagg.
    pose proof (addOrUpdateRating_keeps_own_row now postId stars uid db
                  (ex_intro _ d Hd)) as Hrow.
    rewrite (addOrUpdateRating_run _ _ _ _ _ d Hd) in *. cbn [fst snd] in *.
    set (db' := {| posts := _ |}) in *.
    assert (Hpos : (0 < length (getPostRatings postId db'))%nat).
    { rewrite getPostRatings_length. destruct Hrow as (row & Hin & Hpost).
      destruct (List.filter _ (ratings db')) eqn:Hnil; [|simpl; lia].
      assert (Hrow : In row (List.filter (λ r, String.eqb (rating_postId r) postId)
                                         (ratings db'))).
      { apply filter_In. split; [by apply list_elem_of_In|]. by apply String.eqb_eq. }
      by rewrite Hnil in Hrow. }
    unfold aggregates_of at 1.
    destruct (length (getPostRatings postId db')) eqn:Hlen; [lia|]. simpl.
    split; [done|]. split; [|split; [done|lia]].
    by rewrite Hlen.
  - pose proof (addOrUpdateRating_missing_run now postId stars uid db Hd) as Hrun.
    destruct (addOrUpdateRating now postId stars uid db) as [r db1]. simpl in *.
    by subst r.
Qed.

End rating_section_properties.

(** ** lib/comments: the comment functions, and [deletePost] *)

Section comment_store_properties.
Import Firestore Comments CommentStore PostDeletion.
Local Open Scope Z_scope.

Lemma getComments_run (postId : string) (s : Site) :
  getComments postId s
  = (Ok (merge_sort newer_comment_first
           (query_comments (λ c, String.eqb (comment_postId c) postId) s)), s).
Proof. unfold getComments, reads_site. by unfold_M. Qed.

Lemma newer_comment_first_sorted (l : list Comment) :
  StronglySorted (λ a b, comment_createdAt b ≤ comment_createdAt a)
                 (merge_sort newer_comment_first l).
Proof.
  assert (Transitive newer_comment_first)
    by (intros a b c; unfold newer_comment_first; lia).
  assert (Total newer_comment_first)
    by (intros a b; unfold newer_comment_first; lia).
  apply (StronglySorted_merge_sort newer_comment_first).
Qed.

(** X14: [addComment] stores the comment under a new reference, which it
    returns, whether or not the post exists; posts and ratings are not
    touched.  [getComments] for that post then lists the new comment
    together with the comments it listed before, newest first, and for every
    other post it lists what it listed before. *)
Theorem addComment_then_getComments (created updated : Z) (postId content : string)
    (author name mail : string) (s : Site) :
  let result := addComment created updated postId content author name mail s in
  let new := {| comment_id := next_comment_ref s; comment_postId := postId;
                comment_content := content; comment_authorId := author;
                comment_authorName := name; comment_authorEmail := mail;
                comment_createdAt := created; comment_updatedAt := updated |} in
  result.1 = Ok (next_comment_ref s)
  ∧ site_db result.2 = site_db s
  ∧ (∃ before after,
       (getComments postId s).1 = Ok before
       ∧ (getComments postId result.2).1 = Ok after
       ∧ after ≡ₚ new :: before
       ∧ StronglySorted (λ a b, comment_createdAt b ≤ comment_createdAt a) after)
  ∧ ∀ other, other ≠ postId →
      (getComments other result.2).1 = (getComments other s).1.
Proof.
  intros result new. subst result. unfold addComment, addDoc_comment. unfold_M.
  cbn [fst snd site_db]. split; [done|]. split; [done|]. split.
  - eexists _, _. rewrite !getComments_run. cbn [fst].
    split; [reflexivity|]. split; [reflexivity|].
    split; [|apply newer_comment_first_sorted].
    rewrite !merge_sort_Permutation. unfold query_comments. cbn [site_comments].
    rewrite List.filter_app. simpl. rewrite String.eqb_refl.
    by rewrite Permutation_app_comm.
  - intros other Hne. rewrite !getComments_run. cbn [fst]. do 2 f_equal.
    unfold query_comments. cbn [site_comments]. rewrite List.filter_app. simpl.
    destruct (String.eqb_spec postId other) as [Heq|_]; [by destruct Hne|].
    by rewrite app_nil_r.
Qed.

Lemma map_lookup {A B} (f : A → B) (l : list A) (i : nat) :
  map f l !! i = f <$> (l !! i).
Proof.
  revert i. induction l as [|x l IH]; intros [|i]; simpl; done.
Qed.

(** X15: [updateComment] on a reference no comment has fails with a
    not-found error and changes nothing.  Otherwise it succeeds, and the
    store differs only in the comment of that reference, which has the new
    content and [updatedAt] and keeps its post, its author and its creation
    time. *)
Theorem updateComment_edits_one (now : Z) (commentId : nat) (content : string)
    (s : Site) :
  let result := updateComment now commentId content s in
  if bool_decide (commentId ∈ comment_id <$> site_comments s) then
    result.1 = Ok tt
    ∧ site_db result.2 = site_db s
    ∧ length (site_comments result.2) = length (site_comments s)
    ∧ ∀ i c, site_comments s !! i = Some c →
        site_comments result.2 !! i
        = Some (if bool_decide (comment_id c = commentId)
                then {| comment_id := comment_id c; comment_postId := comment_postId c;
                        comment_content := content;
                        comment_authorId := comment_authorId c;
                        comment_authorName := comment_authorName c;
                        comment_authorEmail := comment_authorEmail c;
                        comment_createdAt := comment_createdAt c;
                        comment_updatedAt := now |}
                else c)
  else result = (Err (NotFound (pretty commentId)), s).
Proof.
  intros result. subst result. unfold updateComment, updateDoc_comment. unfold_M.
  assert (Hex : existsb (λ c, (comment_id c =? commentId)%nat) (site_comments s) = true
                ↔ commentId ∈ comment_id <$> site_comments s).
  { rewrite existsb_exists, list_elem_of_fmap. split.
    - intros (c & Hin & Heq). apply Nat.eqb_eq in Heq. exists c.
      split; [done | by apply list_elem_of_In].
    - intros (c & -> & Hin). exists c. split; [by apply list_elem_of_In|].
      apply Nat.eqb_refl. }
  case_bool_decide as Hin.
  - apply Hex in Hin. rewrite Hin. cbn [fst snd site_db site_comments set_comments].
    split; [done|]. split; [done|]. split; [by rewrite length_map|].
    intros i c Hc. rewrite map_lookup, Hc. simpl. f_equal. unfold edit_comment.
    destruct (Nat.eqb_spec (comment_id c) commentId);
      [by rewrite bool_decide_true | by rewrite bool_decide_false].
  - destruct (existsb _ _); [|done]. destruct Hin. by apply Hex.
Qed.

Lemma filter_fresh_comment (s : Site) :
  comment_refs_wf s →
  List.filter (λ c, negb (comment_id c =? next_comment_ref s)%nat) (site_comments s)
  = site_comments s.
Proof.
  intros [_ Hlt]. apply filter_all. eapply Forall_impl; [exact Hlt|].
  intros c Hc. simpl in Hc. apply negb_true_iff, Nat.eqb_neq. lia.
Qed.

(** X16: deleting the comment that [addComment] has just stored, by the
    reference it returned, gives back the comments as they were; and both
    calls succeed. *)
Theorem addComment_then_deleteComment (created updated : Z) (postId content : string)
    (author name mail : string) (s : Site) :
  comment_refs_wf s →
  let added := addComment created updated postId content author name mail s in
  let deleted := deleteComment (next_comment_ref s) added.2 in
  added.1 = Ok (next_comment_ref s)
  ∧ deleted.1 = Ok tt
  ∧ site_comments deleted.2 = site_comments s
  ∧ site_db deleted.2 = site_db s.
Proof.
  intros Hwf added deleted. subst added deleted.
  unfold addComment, addDoc_comment, deleteComment, deleteDoc_comment. unfold_M.
  cbn [fst snd site_db site_comments set_comments].
  split; [done|]. split; [done|]. split; [|done].
  rewrite List.filter_app, filter_fresh_comment by done. simpl.
  rewrite Nat.eqb_refl. simpl. apply app_nil_r.
Qed.

(** *** [deletePost] *)

(** Deleting, by reference, the documents that satisfy [P] leaves the
    documents that do not, when references are distinct. *)
Lemma delete_by_refs {A} (ref : A → nat) (P : A → bool) (l : list A) :
  NoDup (ref <$> l) →
  foldl (λ acc x, List.filter (λ c, negb (ref c =? ref x)%nat) acc) l (List.filter P l)
  = List.filter (λ c, negb (P c)) l.
Proof.
  intros Hnd.
  assert (Hfold : ∀ xs acc,
    foldl (λ acc x, List.filter (λ c, negb (ref c =? ref x)%nat) acc) acc xs
    = List.filter (λ c, forallb (λ x, negb (ref c =? ref x)%nat) xs) acc).
  { induction xs as [|x xs IH]; intros acc; simpl.
    - symmetry. by apply filter_all, Forall_forall.
    - rewrite IH. clear. induction acc as [|c acc IH]; simpl; [done|].
      destruct (negb (ref c =? ref x)%nat); simpl;
        [destruct (forallb _ xs); by rewrite IH | done]. }
  rewrite Hfold. apply filter_ext_in. intros c Hc.
  destruct (P c) eqn:HP; simpl.
  - apply not_true_iff_false. rewrite forallb_forall. intros Hall.
    specialize (Hall c). rewrite Nat.eqb_refl in Hall. simpl in Hall.
    assert (false = true); [|done]. apply Hall. apply filter_In. by split.
  - apply forallb_forall. intros x Hx. apply filter_In in Hx as [Hx HPx].
    apply negb_true_iff, Nat.eqb_neq. intros Heq.
    assert (c = x) as ->; [|congruence].
    eapply (NoDup_fmap_eq ref); eauto; by apply list_elem_of_In.
Qed.

Lemma delete_comments_run (l : list Comment) (s : Site) :
  for_of l (λ commentDoc, deleteDoc_comment (comment_id commentDoc)) s
  = (Ok tt,
     set_comments
       (foldl (λ acc x, List.filter (λ c, negb (comment_id c =? comment_id x)%nat) acc)
              (site_comments s) l) s).
Proof.
  revert s. induction l as [|x l IH]; intros s; simpl.
  - unfold ret. by destruct s.
  - unfold bind, deleteDoc_comment. by rewrite IH.
Qed.

Lemma delete_ratings_run (l : list Rating) (s : Site) :
  for_of l (λ ratingDoc, lift_db (deleteDoc_rating (rating_id ratingDoc))) s
  = (Ok tt,
     {| site_db :=
          set_ratings
            (foldl (λ acc x, List.filter (λ r, negb (rating_id r =? rating_id x)%nat) acc)
                   (ratings (site_db s)) l) (site_db s);
        site_comments := site_comments s;
        next_comment_ref := next_comment_ref s |}).
Proof.
  revert s. induction l as [|x l IH]; intros s; simpl.
  - unfold ret. destruct s as [[] ? ?]. done.
  - unfold bind, lift_db, deleteDoc_rating. cbn [fst snd]. by rewrite IH.
Qed.

Lemma deletePost_run (postId : string) (s : Site) :
  NoDup (rating_id <$> ratings (site_db s)) →
  NoDup (comment_id <$> site_comments s) →
  deletePost postId s
  = (Ok tt,
     {| site_db :=
          {| posts := delete postId (posts (site_db s));
             ratings := List.filter (λ r, negb (String.eqb (rating_postId r) postId))
                                    (ratings (site_db s));
             next_ref := next_ref (site_db s) |};
        site_comments := List.filter (λ c, negb (String.eqb (comment_postId c) postId))
                                     (site_comments s);
        next_comment_ref := next_comment_ref s |}).
Proof.
  intros Hratings Hcomments. unfold deletePost.
  unfold try_catch, mbind, M_bind, bind, reads_site, throw, ret.
  rewrite delete_comments_run. unfold lift_db at 1, reads. cbn [fst snd].
  rewrite delete_ratings_run. unfold lift_db, deleteDoc_post.
  cbn [fst snd site_db site_comments next_comment_ref set_comments set_ratings set_posts
       posts ratings next_ref].
  unfold query_ratings, query_comments.
  by rewrite (delete_by_refs rating_id), (delete_by_refs comment_id).
Qed.

(** X17: [deletePost] takes the post with its comments and its ratings, and
    nothing else: it succeeds (also when the post does not exist); afterwards
    [getPost] gives [null] for the post and no comment and no rating refers
    to it; the other posts, and the comments and ratings of the other posts,
    are as before. *)
Theorem deletePost_cascades (postId : string) (s : Site) :
  NoDup (rating_id <$> ratings (site_db s)) →
  NoDup (comment_id <$> site_comments s) →
  let result := deletePost postId s in
  result.1 = Ok tt
  ∧ (PostStore.getPost postId (site_db result.2)).1 = Ok None
  ∧ (∀ other, other ≠ postId →
       posts (site_db result.2) !! other = posts (site_db s) !! other)
  ∧ ratings (site_db result.2)
    = List.filter (λ r, negb (String.eqb (rating_postId r) postId)) (ratings (site_db s))
  ∧ site_comments result.2
    = List.filter (λ c, negb (String.eqb (comment_postId c) postId)) (site_comments s)
  ∧ getPostRatings postId (site_db result.2) = []
  ∧ (getComments postId result.2).1 = Ok [].
Proof.
  intros Hratings Hcomments result. subst result.
  rewrite deletePost_run by done. cbn [fst snd site_db site_comments posts ratings].
  split; [done|]. split.
  { unfold PostStore.getPost. unfold_M. cbn [posts]. by rewrite lookup_delete_eq. }
  split; [intros other Hne; by rewrite lookup_delete_ne|].
  split; [done|]. split; [done|].
  assert (Hnone : ∀ {A} (f : A → bool) (l : list A),
            List.filter f (List.filter (λ x, negb (f x)) l) = []).
  { intros A f l. induction l as [|x l IH]; simpl; [done|].
    destruct (f x) eqn:Hf; simpl; [done|]. by rewrite Hf. }
  split.
  - unfold getPostRatings, query_ratings. cbn [ratings]. by rewrite Hnone.
  - rewrite getComments_run. cbn [fst]. unfold query_comments. cbn [site_comments].
    by rewrite Hnone.
Qed.

End comment_store_properties.

(** ** lib/storage, continued *)

Section storage_more_properties.
Import Storage StorageMove.
Local Open Scope Z_scope.
Variable storage : Service.

Lemma uploadFile_run (timestamp created : Z) (file : File) (userId : string)
    (postId : option string) (b : Bucket) :
  let path := upload_path timestamp file userId postId in
  uploadFile storage timestamp created file userId postId b
  = if upload_fails storage path then (Err (BackendError path), b)
    else (Ok {| media_id := upload_fileName timestamp file;
                media_url := downloadURL storage path;
                media_type := if JS.startsWith (file_type file) "image/"
                              then image else video;
                media_filename := file_name file; media_size := file_size file;
                media_createdAt := created |},
          <[path := {| timeCreated := timestamp; object_size := file_size file;
                       contentType := file_type file |}]> b).
Proof.
  intros path. unfold uploadFile, uploadBytes, getDownloadURL. unfold_M.
  fold (upload_path timestamp file userId postId). fold path.
  by destruct (upload_fails storage path).
Qed.

Lemma deleteFile_run (path : string) (b : Bucket) :
  deleteFile storage path b
  = match b !! path with
    | None => (Err (NotFound path), b)
    | Some _ => if delete_fails storage path then (Err (BackendError path), b)
                else (Ok tt, delete path b)
    end.
Proof.
  unfold deleteFile, deleteObject. unfold_M.
  destruct (b !! path); [|done]. by destruct (delete_fails storage path).
Qed.

Lemma getFileMetadata_run (path : string) (b : Bucket) :
  getFileMetadata storage path b
  = match b !! path with
    | None => (Err (NotFound path), b)
    | Some m => if metadata_fails storage path then (Err (BackendError path), b)
                else (Ok m, b)
    end.
Proof.
  unfold getFileMetadata, getMetadata. unfold_M.
  destruct (b !! path); [|done]. by destruct (metadata_fails storage path).
Qed.

(** The folder [uploadFile] writes to. *)
Lemma upload_path_folder (timestamp : Z) (file : File) (userId : string)
    (postId : option string) :
  upload_path timestamp file userId postId
  = (match postId with
     | Some p => if String.eqb p "" then "temp/" +:+ userId else "posts/" +:+ p
     | None => "temp/" +:+ userId
     end +:+ "/") +:+ upload_fileName timestamp file.
Proof.
  unfold upload_path, upload_storagePath.
  destruct postId as [p|]; [destruct (String.eqb p "")|]; by rewrite !append_assoc.
Qed.







(** X19: [deleteFile] removes the object at the path and no other; on a path
    that holds no object it fails with a not-found error and changes
    nothing.  So it cannot be repeated: a second [deleteFile] of the same
    path fails, and so does [getFileMetadata]. *)
Theorem deleteFile_once (filePath : string) (b : Bucket) :
  match b !! filePath with
  | None => deleteFile storage filePath b = (Err (NotFound filePath), b)
  | Some _ =>
      delete_fails storage filePath = false →
      let result := deleteFile storage filePath b in
      result.1 = Ok tt
      ∧ (∀ other, result.2 !! other = if decide (other = filePath) then None else b !! other)
      ∧ deleteFile storage filePath result.2 = (Err (NotFound filePath), result.2)
      ∧ getFileMetadata storage filePath result.2 = (Err (NotFound filePath), result.2)
  end.
Proof.
  destruct (b !! filePath) as [m|] eqn:Hb; [|by rewrite deleteFile_run, Hb].
  intros Hdel result. subst result. rewrite deleteFile_run, Hb, Hdel. cbn [fst snd].
  split; [done|]. split.
  - intros other. destruct (decide (other = filePath)) as [->|Hne];
      [apply lookup_delete_eq | by apply lookup_delete_ne].
  - by rewrite deleteFile_run, getFileMetadata_run, lookup_delete_eq.
Qed.

(** X20: two uploads at the same time stamp to the same folder collide
    exactly when the files have the same name; an upload to a post and an
    upload to a temp folder never collide. *)
Theorem upload_path_collisions (timestamp : Z) (file1 file2 : File)
    (userId : string) (postId : option string) :
  (upload_path timestamp file1 userId postId = upload_path timestamp file2 userId postId
   ↔ file_name file1 = file_name file2)
  ∧ ∀ t1 t2 user post,
      post ≠ "" →
      upload_path t1 file1 userId (Some post) ≠ upload_path t2 file2 user None.
Proof.
  split.
  - rewrite !upload_path_folder. unfold upload_fileName. split.
    + intros Heq. by do 3 apply append_inj_l in Heq.
    + by intros ->.
  - intros t1 t2 user post Hpost. unfold upload_path, upload_storagePath.
    apply String.eqb_neq in Hpost. rewrite Hpost.
    change ("posts/" +:+ ?s) with (String "p" ("osts/" +:+ s)).
    change ("temp/" +:+ ?s) with (String "t" ("emp/" +:+ s)). discriminate.
Qed.


(** *** [moveFilesToPost] *)

Section move.
Variable fetch_blob : string → Result Blob.

Lemma move_loop_cons (clock : nat → Z * Z) (i : nat) (file : MediaItem)
    (rest : list MediaItem) (userId postId : string) (moved : list MediaItem)
    (b : Bucket) :
  move_loop storage fetch_blob clock i (file :: rest) userId postId moved b
  = match fetch_blob (media_url file) with
    | Err e => (Err e, b)
    | Ok blob =>
        match uploadFile storage (clock i).1 (clock i).2 (refetched file blob)
                userId (Some postId) b with
        | (Err e, b1) => (Err e, b1)
        | (Ok newFile, b1) =>
            match deleteFile storage (temp_path_of userId file) b1 with
            | (Err e, b2) => (Err e, b2)
            | (Ok _, b2) =>
                move_loop storage fetch_blob clock (S i) rest userId postId
                  (moved ++ [newFile])%list b2
            end
        end
    end.
Proof.
  cbn [move_loop]. unfold mbind, M_bind, bind, fetch.
  destruct (fetch_blob (media_url file)) as [blob|e]; [|done].
  fold (refetched file blob).
  destruct (uploadFile storage _ _ _ _ _ b) as [[newFile|e] b1]; [|done].
  fold (temp_path_of userId file).
  by destruct (deleteFile storage _ b1) as [[[]|e] b2].
Qed.


Lemma posts_path_not_temp (a b : string) : "posts/" +:+ a ≠ "temp/" +:+ b.
Proof.
  change ("posts/" +:+ a) with (String "p" ("osts/" +:+ a)).
  change ("temp/" +:+ b) with (String "t" ("emp/" +:+ b)). discriminate.
Qed.

Lemma move_loop_moves (clock : nat → Z * Z) (tempFiles : list MediaItem)
    (userId postId : string) :
  postId ≠ "" →
  (∀ p, upload_fails storage p = false) →
  NoDup (media_id <$> tempFiles) →
  ∀ (i : nat) (moved : list MediaItem) (b : Bucket),
    (∀ file, file ∈ tempFiles →
       (∃ blob, fetch_blob (media_url file) = Ok blob)
       ∧ is_Some (b !! temp_path_of userId file)
       ∧ delete_fails storage (temp_path_of userId file) = false) →
    ∃ new b',
      move_loop storage fetch_blob clock i tempFiles userId postId moved b
      = (Ok (moved ++ new)%list, b')
      ∧ media_filename <$> new = media_filename <$> tempFiles
      ∧ (∀ file, file ∈ tempFiles → b' !! temp_path_of userId file = None)
      ∧ (∀ item, item ∈ new →
           is_Some (b' !! ("posts/" +:+ postId +:+ "/" +:+ media_id item)))
      ∧ (∀ s, b !! ("temp/" +:+ s) = None → b' !! ("temp/" +:+ s) = None)
      ∧ (∀ s, is_Some (b !! ("posts/" +:+ s)) → is_Some (b' !! ("posts/" +:+ s))).
Proof.
  intros Hpost Hup. apply String.eqb_neq in Hpost.
  induction tempFiles as [|file rest IH]; intros Hnd i moved b Hfiles.
  - exists [], b. simpl. unfold ret. rewrite app_nil_r.
    split; [done|]. split; [done|]. split; [by intros ? ?%not_elem_of_nil|].
    split; [by intros ? ?%not_elem_of_nil|]. done.
  - rewrite fmap_cons in Hnd. apply NoDup_cons in Hnd as [Hfresh Hnd].
    destruct (Hfiles file) as ([blob Hfetch] & [m Htemp] & Hdel); [by left|].
    rewrite move_loop_cons, Hfetch, uploadFile_run, Hup, deleteFile_run.
    set (copy := refetched file blob).
    set (path := upload_path (clock i).1 copy userId (Some postId)).
    assert (Hpath : path = "posts/" +:+ postId +:+ "/" +:+ upload_fileName (clock i).1 copy).
    { unfold path, upload_path, upload_storagePath. by rewrite Hpost. }
    rewrite lookup_insert_ne by (rewrite Hpath; apply posts_path_not_temp).
    rewrite Htemp, Hdel.
    set (b2 := delete (temp_path_of userId file) (<[path := _]> b)).
    destruct (IH Hnd (S i) (moved ++ [ {| media_id := upload_fileName (clock i).1 copy;
        media_url := downloadURL storage path;
        media_type := if JS.startsWith (file_type copy) "image/" then image else video;
        media_filename := file_name copy; media_size := file_size copy;
        media_createdAt := (clock i).2 |} ])%list b2)
      as (new & b' & Hrun & Hnames & Hgone & Hthere & Htempframe & Hpostsframe).
    { intros f Hf. destruct (Hfiles f) as (Hblob & [mf Hmf] & Hdelf); [by right|].
      split; [done|]. split; [|done]. exists mf. unfold b2.
      rewrite lookup_delete_ne.
      - rewrite lookup_insert_ne; [done|]. rewrite Hpath. apply posts_path_not_temp.
      - unfold temp_path_of. intros Heq. do 3 apply append_inj_l in Heq.
        destruct Hfresh. rewrite Heq. by apply list_elem_of_fmap_2. }
    eexists (_ :: new), b'. split; [by rewrite Hrun, <- app_assoc|].
    split; [by rewrite !fmap_cons, Hnames|].
    split; [|split; [|split]].
    + intros f [->|Hf]%elem_of_cons; [|by apply Hgone].
      apply (Htempframe (userId +:+ "/" +:+ media_id file)).
      apply lookup_delete_eq.
    + intros item [->|Hitem]%elem_of_cons; [|by apply Hthere].
      cbn [media_id]. apply Hpostsframe. unfold b2.
      rewrite lookup_delete_ne by (apply not_eq_sym, posts_path_not_temp).
      rewrite <- Hpath, lookup_insert_eq. eauto.
    + intros s Hs. apply Htempframe. unfold b2.
      destruct (decide (temp_path_of userId file = "temp/" +:+ s)) as [<-|Hne];
        [apply lookup_delete_eq|].
      rewrite lookup_delete_ne by done.
      rewrite lookup_insert_ne; [done|]. rewrite Hpath. apply posts_path_not_temp.
    + intros s [ms Hs]. apply Hpostsframe. unfold b2.
      rewrite lookup_delete_ne by (apply not_eq_sym, posts_path_not_temp).
      destruct (decide (path = "posts/" +:+ s)) as [<-|Hne];
        [rewrite lookup_insert_eq | rewrite lookup_insert_ne by done]; eauto.
Qed.

(** X23: when it goes through, [moveFilesToPost] moves every item.  For
    items with distinct ids whose bytes can be fetched and whose temp
    objects exist, on a store that accepts the writes and deletes, it
    returns one item per temp item, in the same order and with the same file
    names; each returned item has an object in the post's folder under its
    new id, and no temp object of a moved item is left. *)
Theorem moveFilesToPost_moves (clock : nat → Z * Z) (tempFiles : list MediaItem)
    (userId postId : string) (b : Bucket) :
  postId ≠ "" →
  (∀ p, upload_fails storage p = false) →
  NoDup (media_id <$> tempFiles) →
  (∀ file, file ∈ tempFiles →
     (∃ blob, fetch_blob (media_url file) = Ok blob)
     ∧ is_Some (b !! temp_path_of userId file)
     ∧ delete_fails storage (temp_path_of userId file) = false) →
  ∃ moved b',
    moveFilesToPost storage fetch_blob clock tempFiles userId postId b = (Ok moved, b')
    ∧ media_filename <$> moved = media_filename <$> tempFiles
    ∧ (∀ file, file ∈ tempFiles → b' !! temp_path_of userId file = None)
    ∧ (∀ item, item ∈ moved →
         is_Some (b' !! ("posts/" +:+ postId +:+ "/" +:+ media_id item))).
Proof.
  intros Hpost Hup Hnd Hfiles.
  destruct (move_loop_moves clock tempFiles userId postId Hpost Hup Hnd 0%nat [] b Hfiles)
    as (new & b' & Hrun & Hnames & Hgone & Hthere & _).
  exists new, b'. unfold moveFilesToPost, try_catch. rewrite Hrun. done.
Qed.

End move.

End storage_more_properties.

(** ** hooks/use-media-upload *)

Section media_upload_hook_properties.
Import Storage MediaUploadHook.
Local Open Scope Z_scope.

Lemma validateFiles_cons (opts : Options) (file : File) (rest : list File) :
  validateFiles opts (file :: rest)
  = if bool_decide (hook_accepts opts file)
    then (file :: (validateFiles opts rest).1, (validateFiles opts rest).2)
    else ((validateFiles opts rest).1,
          (if JS.array_includes (allowedTypes opts) (file_type file)
           then file_name file +:+ ": File size exceeds "
                +:+ pretty (JS.Math_round (inject_Z (maxFileSize opts)
                                           / inject_Z (1024 * 1024))%Q)
                +:+ "MB limit"
           else file_name file +:+ ": Unsupported file type")
            :: (validateFiles opts rest).2).
Proof.
  cbn [validateFiles]. unfold hook_accepts.
  destruct (JS.array_includes (allowedTypes opts) (file_type file)) eqn:Hin; simpl.
  - apply array_includes_elem_of in Hin.
    destruct (Z.gtb_spec (file_size file) (maxFileSize opts)).
    + rewrite bool_decide_false; [done | lia].
    + by rewrite bool_decide_true.
  - rewrite bool_decide_false; [done|]. intros [Hin' _].
    apply array_includes_elem_of in Hin'. congruence.
Qed.

Lemma validateFiles_no_errors (opts : Options) (files : list File) :
  ((validateFiles opts files).2 = [] ↔ Forall (hook_accepts opts) files)
  ∧ ((validateFiles opts files).2 = [] → (validateFiles opts files).1 = files).
Proof.
  induction files as [|file rest [IHnone IHall]]; [done|].
  rewrite validateFiles_cons. case_bool_decide as Hok; cbn [fst snd].
  - split.
    + rewrite IHnone. split; [by constructor | by inv 1].
    + intros Hnil. by rewrite IHall.
  - split; [split; [done | by inv 1] | done].
Qed.

(** X24: [validateFiles] splits its input: the files it returns as valid are
    exactly the files of an allowed type and of a size within the limit, in
    their order, and it gives one message for each other file.  So no
    message means every file is valid. *)
Theorem validateFiles_partitions (opts : Options) (files : list File) :
  let result := validateFiles opts files in
  result.1 = filter (hook_accepts opts) files
  ∧ (length result.1 + length result.2 = length files)%nat
  ∧ (result.2 = [] ↔ Forall (hook_accepts opts) files)
  ∧ (result.2 = [] → result.1 = files).
Proof.
  cbn zeta. split; [|split; [|apply validateFiles_no_errors]].
  - induction files as [|file rest IH]; [done|].
    rewrite validateFiles_cons. case_bool_decide as Hok; cbn [fst].
    + by rewrite filter_cons_True, IH.
    + by rewrite filter_cons_False, IH.
  - induction files as [|file rest IH]; [done|].
    rewrite validateFiles_cons. case_bool_decide as Hok; cbn [fst snd length]; lia.
Qed.

(** X25: [addFiles] adds all the new files or none.  It appends them to the
    selection and clears the error when every one of them is valid and the
    selected and uploaded files together stay within [maxFiles]; otherwise
    it leaves the selection alone and sets an error.  It never touches the
    uploaded media, and a selection that is within [maxFiles] and valid
    stays so. *)
Theorem addFiles_all_or_nothing (opts : Options) (state : MediaUploadState)
    (newFiles : list File) :
  let state' := addFiles opts state newFiles in
  let total (s : MediaUploadState) :=
    Z.of_nat (length (selectedFiles s) + length (uploadedMedia s)) in
  (if bool_decide (Forall (hook_accepts opts) newFiles
                   ∧ total state + Z.of_nat (length newFiles) ≤ maxFiles opts)
   then selectedFiles state' = (selectedFiles state ++ newFiles)%list
        ∧ upload_error state' = None
   else selectedFiles state' = selectedFiles state
        ∧ is_Some (upload_error state'))
  ∧ uploadedMedia state' = uploadedMedia state
  ∧ (total state ≤ maxFiles opts → total state' ≤ maxFiles opts)
  ∧ (Forall (hook_accepts opts) (selectedFiles state) →
     Forall (hook_accepts opts) (selectedFiles state')).
Proof.
  intros state' total. subst state'. unfold addFiles.
  destruct (validateFiles_no_errors opts newFiles) as [Hnone Hall].
  destruct ((validateFiles opts newFiles).2) as [|msg msgs] eqn:Herrors.
  - assert (Hok : Forall (hook_accepts opts) newFiles) by (by apply Hnone).
    rewrite (Hall eq_refl). simpl length. cbn [Nat.ltb Nat.leb].
    destruct (Z.gtb_spec (Z.of_nat (length (selectedFiles state)
                + length (uploadedMedia state) + length newFiles)) (maxFiles opts)).
    + rewrite bool_decide_false by (unfold total; lia).
      cbn [selectedFiles uploadedMedia upload_error set_error]. eauto.
    + rewrite bool_decide_true by (unfold total; split; [done | lia]).
      cbn [selectedFiles uploadedMedia upload_error set_error set_selectedFiles].
      split; [done|]. split; [done|]. split.
      * intros _. unfold total. simpl. rewrite List.length_app. lia.
      * intros Hsel. by apply Forall_app.
  - rewrite bool_decide_false.
    + cbn [length Nat.ltb Nat.leb selectedFiles uploadedMedia upload_error set_error]. eauto.
    + intros [Hok _]. by apply Hnone in Hok.
Qed.

Lemma allowed_by_both (type : string) :
  type ∈ ALLOWED_TYPES ∧ type ∈ allowedTypes DEFAULT_OPTIONS
  ↔ type ∈ types_allowed_by_both.
Proof.
  unfold ALLOWED_TYPES, ALLOWED_IMAGE_TYPES, ALLOWED_VIDEO_TYPES,
    types_allowed_by_both. cbn [allowedTypes DEFAULT_OPTIONS app].
  rewrite !elem_of_cons, !elem_of_nil.
  split.
  - intros [Hstorage Hhook].
    repeat (destruct Hstorage as [->|Hstorage];
            [first [ solve [repeat (first [left; reflexivity | right])]
                   | repeat (destruct Hhook as [Hhook|Hhook]; [discriminate Hhook|]);
                     done ]|]).
    done.
  - intros Hboth.
    repeat (destruct Hboth as [->|Hboth];
            [split; solve [repeat (first [left; reflexivity | right])]|]).
    done.
Qed.

(** X26: the two file checks of the application differ.  With the default
    options, a file passes both [validateFile] and the upload hook's
    [validateFiles] exactly when it is no larger than 500 MiB and its type
    is one of the five image types, [video/mp4] or [video/webm]: the other
    types each of the two lists allows are missing from the other one. *)
Theorem validators_agree_on (file : File) :
  (valid (validateFile file) = true
   ∧ (validateFiles DEFAULT_OPTIONS [file]).1 = [file])
  ↔ (file_size file ≤ 500 * 1024 * 1024
     ∧ file_type file ∈ types_allowed_by_both).
Proof.
  rewrite <- allowed_by_both, <- array_includes_elem_of.
  rewrite validateFiles_cons. cbn [validateFiles fst snd].
  unfold validateFile, hook_accepts. change MAX_SIZE with (500 * 1024 * 1024).
  cbn [maxFileSize DEFAULT_OPTIONS].
  destruct (Z.gtb_spec (file_size file) (500 * 1024 * 1024)) as [Hbig|Hsmall].
  - cbn [valid]. split; [by intros [? _] | lia].
  - destruct (JS.array_includes ALLOWED_TYPES (file_type file)); cbn [negb valid].
    + case_bool_decide as Hhook.
      * by destruct Hhook.
      * split; [intros [_ Heq]; by destruct file|].
        intros (_ & _ & Hin). by destruct Hhook.
    + split; [by intros [? _]|]. by intros (_ & ? & _).
Qed.

End media_upload_hook_properties.

(** ** components/ui/tag-input *)

Section tag_input_properties.
Import TagInput.
Local Open Scope nat_scope.
(** [String.prototype.trim]: the statements hold whatever it strips. *)
Variable trim : string → string.

Lemma removeTag_elem_of (tags : list string) (tagToRemove tag : string) :
  tag ∈ removeTag tags tagToRemove ↔ tag ∈ tags ∧ tag ≠ tagToRemove.
Proof.
  unfold removeTag. rewrite !list_elem_of_In, List.filter_In, negb_true_iff.
  by rewrite String.eqb_neq.
Qed.

Lemma removeTag_absent (tags : list string) (tagToRemove : string) :
  tagToRemove ∉ tags → removeTag tags tagToRemove = tags.
Proof.
  induction tags as [|tag tags IH]; [done|].
  rewrite not_elem_of_cons. intros [Hne Hnotin]. cbn [removeTag List.filter].
  destruct (String.eqb_spec tag tagToRemove) as [->|_]; [done|].
  cbn [negb]. f_equal. by apply IH.
Qed.

(** X27: the tag input keeps the tag list clean, whatever white space
    [trim] strips.  From a list of distinct, non-empty tags of length at
    most [maxTags], [addTag] either hands over
    the list with the trimmed input at its end and clears the input, and
    the new list is again one of distinct, non-empty tags of length at most
    [maxTags], from which [removeTag] of the new tag gives the old list
    back; or it hands over nothing and keeps the input, which happens
    exactly when the trimmed input is empty or already a tag, or the list
    is full.  [removeTag] removes the tag and nothing else, and keeps the
    list clean as well. *)
Theorem tag_input_keeps_tags_clean (tags : list string) (maxTags : nat)
    (currentTag tagToRemove : string) :
  NoDup tags → ("" ∉ tags) → length tags ≤ maxTags →
  match addTag trim tags maxTags currentTag with
  | (Some tags', input) =>
      tags' = (tags ++ [trim currentTag])%list ∧ input = ""
      ∧ NoDup tags' ∧ ("" ∉ tags') ∧ length tags' ≤ maxTags
      ∧ removeTag tags' (trim currentTag) = tags
  | (None, input) =>
      input = currentTag
      ∧ (trim currentTag = "" ∨ trim currentTag ∈ tags ∨ length tags = maxTags)
  end
  ∧ let tags' := removeTag tags tagToRemove in
    (∀ tag, tag ∈ tags' ↔ tag ∈ tags ∧ tag ≠ tagToRemove)
    ∧ NoDup tags' ∧ ("" ∉ tags') ∧ length tags' ≤ maxTags.
Proof.
  intros Hnd Hne Hlen. split.
  - unfold addTag.
    destruct (String.eqb_spec (trim currentTag) "") as [Hblank|Hblank];
      cbn [negb andb]; [by auto|].
    destruct (JS.array_includes tags (trim currentTag)) eqn:Hin; cbn [negb andb].
    { apply array_includes_elem_of in Hin. by auto. }
    assert (Hnew : trim currentTag ∉ tags).
    { intros Hin'. apply array_includes_elem_of in Hin'. congruence. }
    destruct (Nat.ltb_spec (length tags) maxTags) as [Hroom|Hfull].
    + split; [done|]. split; [done|]. split.
      { apply NoDup_app. split; [done|]. split; [|apply NoDup_singleton].
        intros tag Htag ->%list_elem_of_singleton. done. }
      split.
      { rewrite elem_of_app, list_elem_of_singleton. intros [?|?]; [done|].
        by apply Hblank. }
      split; [rewrite List.length_app; simpl; lia|].
      unfold removeTag. rewrite List.filter_app. cbn [List.filter].
      rewrite String.eqb_refl. cbn [negb]. rewrite app_nil_r.
      by apply removeTag_absent.
    + split; [done|]. right. right. lia.
  - cbn zeta. split; [apply removeTag_elem_of|]. split.
    { unfold removeTag. apply NoDup_ListNoDup, List.NoDup_filter. by apply NoDup_ListNoDup. }
    split.
    { rewrite removeTag_elem_of. by intros [? _]. }
    unfold removeTag. pose proof (List.filter_length_le
      (λ tag, negb (String.eqb tag tagToRemove)) tags). lia.
Qed.

End tag_input_properties.

(** ** components/blog/post-detail: the media viewer *)

Section media_navigation_properties.
Import JSMore MediaNavigation.
Local Open Scope Z_scope.

(** X28: in the viewer of a post with media, from an index of the list
    [next] and [prev] lead to indices of the list again, wrapping around at
    its ends, and each undoes the other.  On an empty media list [next]
    gives [NaN], whatever the index. *)
Theorem handleMediaNavigation_cycles (media : list MediaItem) (viewerIndex : Z) :
  handleMediaNavigation next viewerIndex [] = None
  ∧ (0 ≤ viewerIndex < Z.of_nat (length media) →
     ∃ after before,
       handleMediaNavigation next viewerIndex media = Some after
       ∧ handleMediaNavigation prev viewerIndex media = Some before
       ∧ 0 ≤ after < Z.of_nat (length media)
       ∧ 0 ≤ before < Z.of_nat (length media)
       ∧ after = (if viewerIndex =? Z.of_nat (length media) - 1 then 0
                  else viewerIndex + 1)
       ∧ handleMediaNavigation prev after media = Some viewerIndex
       ∧ handleMediaNavigation next before media = Some viewerIndex).
Proof.
  split; [done|]. intros Hin. unfold handleMediaNavigation, remainder.
  generalize dependent (Z.of_nat (length media)). intros n Hin.
  destruct (Z.eqb_spec n 0) as [|_]; [lia|].
  rewrite Z.rem_mod_nonneg by lia.
  eexists _, _. split; [done|]. split; [done|].
  destruct (Z.eqb_spec viewerIndex (n - 1)) as [->|Hlast].
  - rewrite Z.sub_add, Z.mod_same by lia. change (0 =? 0) with true. cbv iota.
    destruct (Z.eqb_spec (n - 1) 0) as [Hfirst|Hfirst].
    + rewrite Hfirst. assert (n = 1) as -> by lia. repeat split; lia.
    + rewrite Z.rem_mod_nonneg, Z.mod_small by lia.
      repeat split; try lia. f_equal. lia.
  - rewrite Z.mod_small by lia.
    destruct (Z.eqb_spec (viewerIndex + 1) 0) as [|_]; [lia|].
    rewrite Z.add_simpl_r.
    destruct (Z.eqb_spec viewerIndex 0) as [->|Hfirst].
    + rewrite Z.sub_add, Z.rem_mod_nonneg, Z.mod_same by lia.
      repeat split; lia.
    + rewrite Z.sub_add, Z.rem_mod_nonneg, Z.mod_small by lia.
      repeat split; lia.
Qed.

End media_navigation_properties.

(** ** lib/auth *)

Section auth_properties.
Import Auth.
Variable AUTHORIZED_EMAIL : string.

Lemma isAuthorizedUser_email (user : User) :
  isAuthorizedUser AUTHORIZED_EMAIL (Some user) = true
  ↔ email user = Some AUTHORIZED_EMAIL.
Proof.
  unfold isAuthorizedUser. destruct (email user) as [e|]; [|done].
  rewrite String.eqb_eq. split; [by intros -> | by intros [= ->]].
Qed.

(** X29: [signInWithGoogle] succeeds exactly when the popup returns a user
    whose email is the authorized one, and then gives no error; every
    failure carries an error message.  An unauthorized user is signed out
    again unless the sign-out itself fails, and even then
    [onAuthStateChange] hands the application no user: the user it passes
    on is always the signed-in one and has the authorized email. *)
Theorem signInWithGoogle_admits_only_authorized (popup : Thrown + User)
    (signOut_failure : option Thrown) (current : option User) :
  let result := (signInWithGoogle AUTHORIZED_EMAIL popup signOut_failure current).1 in
  let current' := (signInWithGoogle AUTHORIZED_EMAIL popup signOut_failure current).2 in
  (success result = true
   ↔ ∃ user, popup = inr user ∧ email user = Some AUTHORIZED_EMAIL)
  ∧ (if success result then signin_error result = None ∧ inr <$> current' = Some popup
     else is_Some (signin_error result))
  ∧ (∀ user, popup = inr user → email user ≠ Some AUTHORIZED_EMAIL →
     signOut_failure = None → current' = None)
  ∧ (∀ error, popup = inl error → current' = current)
  ∧ (∀ user, onAuthStateChange AUTHORIZED_EMAIL current' = Some user →
     current' = Some user ∧ email user = Some AUTHORIZED_EMAIL)
  ∧ (success result = false → current = None →
     onAuthStateChange AUTHORIZED_EMAIL current' = None).
Proof.
  cbn zeta. unfold signInWithGoogle.
  assert (Hpass : ∀ (x : option User) user,
    onAuthStateChange AUTHORIZED_EMAIL x = Some user →
    x = Some user ∧ email user = Some AUTHORIZED_EMAIL).
  { intros [u|] user; [|done]. unfold onAuthStateChange.
    destruct (isAuthorizedUser AUTHORIZED_EMAIL (Some u)) eqn:Hauth; [|done].
    intros [= <-]. split; [done|]. by apply isAuthorizedUser_email. }
  destruct popup as [error|user].
  - cbn [fst snd success signin_error]. split; [split; [done | by intros (? & ? & _)]|].
    split; [by eauto|]. split; [done|]. split; [done|]. split; [apply Hpass|].
    by intros _ ->.
  - destruct (isAuthorizedUser AUTHORIZED_EMAIL (Some user)) eqn:Hauth; cbn [negb].
    + apply isAuthorizedUser_email in Hauth.
      cbn [fst snd success signin_error]. split; [split; [by eauto | done]|].
      split; [done|]. split; [by intros ? [= <-]|]. split; [done|].
      split; [apply Hpass | done].
    + assert (Hno : email user ≠ Some AUTHORIZED_EMAIL).
      { intros Hemail%isAuthorizedUser_email. congruence. }
      destruct signOut_failure as [error|]; cbn [fst snd success signin_error].
      * split; [split; [done | by intros (? & [= <-] & ?)]|].
        split; [by eauto|]. split; [done|]. split; [done|].
        split; [apply Hpass|]. intros _ _. unfold onAuthStateChange. by rewrite Hauth.
      * split; [split; [done | by intros (? & [= <-] & ?)]|].
        split; [by eauto|]. split; [done|]. split; [done|].
        split; [apply Hpass | done].
Qed.

End auth_properties.

(** ** hooks/use-form-state *)

Section form_state_properties.
Import FormState.

(** X30: [executeAsync] always leaves the form not loading.  When the
    function resolves and no callback throws it returns the value it
    resolved to, with no error and the form clean; when the function throws
    it returns [null] or rethrows what [onError] throws, records an error
    message and leaves the dirty flag as it was.  No error is recorded
    exactly when the function resolved and [onSuccess] did not throw.  So a
    result other than [null] means success, while [null] is returned
    without an error exactly when the function itself resolved to
    [null]. *)
Theorem executeAsync_settles {T} (resetOnSuccess : bool)
    (onSuccess onError : option Thrown) (outcome : Thrown + option T) (s : FormState) :
  let result := (executeAsync resetOnSuccess onSuccess onError outcome s).1 in
  let s' := (executeAsync resetOnSuccess onSuccess onError outcome s).2 in
  isLoading s' = false
  ∧ (∀ value, outcome = inr value → onSuccess = None →
     result = inr value ∧ form_error s' = None ∧ isDirty s' = false)
  ∧ (∀ error, outcome = inl error →
     is_Some (form_error s') ∧ isDirty s' = isDirty s
     ∧ result = match onError with Some thrown => inl thrown | None => inr None end)
  ∧ (form_error s' = None ↔ (∃ value, outcome = inr value) ∧ onSuccess = None)
  ∧ (∀ value : T, result = inr (Some value) →
     outcome = inr (Some value) ∧ form_error s' = None)
  ∧ (result = inr None →
     (form_error s' = None ↔ outcome = inr None ∧ onSuccess = None)).
Proof.
  cbn zeta. unfold executeAsync.
  destruct outcome as [error|value].
  - destruct onError; cbn.
    all: split; [done|]; split; [done|]; split; [by intros ? [= <-]; eauto|].
    all: split; [split; [done | by intros [[? ?] _]]|].
    all: split; [done|]; intros _; split; [done | by intros [? _]].
  - destruct resetOnSuccess, onSuccess as [thrown|], onError; cbn.
    all: split; [done|]; split; [by intros ? [= <-] ?|]; split; [done|].
    all: split; [(split; [by eauto | done]) || (split; [done | by intros [_ ?]])|].
    all: split; [(by intros ? [= ->]) || done|].
    all: intros Hnull; split; [|by intros [? ?]].
    all: first [done | by intros _; injection Hnull as ->].
Qed.

End form_state_properties.

(** ** The statements on sample data *)

Section samples.
Import Storage Firestore Database Comments PostStore CommentStore PostDeletion
  StorageMove PostsHook.

(** The two tagged posts of the sample are found. *)
Lemma getPostsByTag_sound_and_complete_witness :
  ∃ result,
    getPostsByTag "travel" tagged_db = (Ok result, tagged_db)
    ∧ {| post_id := "p1"; post_fields := tagged_post "Alps" 1 ["travel"; "hiking"] |}
      ∈ result
    ∧ {| post_id := "p3"; post_fields := tagged_post "Coast" 3 ["travel"] |} ∈ result.
Proof.
  destruct (getPostsByTag_sound_and_complete "travel" tagged_db)
    as (result & Hrun & _ & _ & _ & _ & Hall).
  assert (Hfew : (length (List.filter
                    (λ d : DocSnapshot, JS.array_includes (tags d.2) "travel")
                    (map_to_list (posts tagged_db))) ≤ 50)%nat)
    by (vm_compute; lia).
  exists result. split; [exact Hrun|]. split.
  - apply (Hall Hfew "p1"); [by vm_compute | by left].
  - apply (Hall Hfew "p3"); [by vm_compute | by left].
Defined.

(** Eight posts in pages of two: three calls of [fetchNextPage] list them
    all, and a fourth adds nothing. *)
Lemma useInfinitePosts_lists_every_post_witness :
  let options := {| hook_sortBy := None; hook_limit := Some 2%nat |} in
  NoDup (post_id <$> concat (page_posts <$> useInfinitePosts options (sample_db 8) 3))
  ∧ useInfinitePosts options (sample_db 8) 4 = useInfinitePosts options (sample_db 8) 3.
Proof.
  intros options.
  assert (Hsize : (size (posts (sample_db 8))
                   ≤ (3 + 1) * limit_or_12 (hook_limit options))%nat)
    by (vm_compute; lia).
  destruct (useInfinitePosts_lists_every_post options (sample_db 8) 3 Hsize)
    as (_ & _ & _ & Hnd & _ & _ & Hstop).
  split; [exact Hnd | exact Hstop].
Defined.

(** Alice rates the sample post. *)
Lemma getUserRating_after_addOrUpdateRating_witness :
  let db' := (addOrUpdateRating 10 "p1" 4 "alice" (sample_db 1)).2 in
  getUserRating "p1" "alice" db' = (Ok (Some 4), db').
Proof.
  apply (getUserRating_after_addOrUpdateRating 10 "p1" 4 "alice" (sample_db 1)).
  - vm_compute. eauto.
  - split; [apply NoDup_nil_2 | apply Forall_nil_2].
Defined.

(** Alice withdraws her rating of the sample post. *)
Lemma getUserRating_after_deleteRating_witness :
  let db := (addOrUpdateRating 10 "p1" 4 "alice" (sample_db 1)).2 in
  let db' := (deleteRating "p1" "alice" db).2 in
  getUserRating "p1" "alice" db' = (Ok None, db').
Proof.
  apply (getUserRating_after_deleteRating "p1" "alice"
           (addOrUpdateRating 10 "p1" 4 "alice" (sample_db 1)).2).
  intros post author. unfold query_ratings.
  replace (ratings (addOrUpdateRating 10 "p1" 4 "alice" (sample_db 1)).2)
    with [ {| rating_id := 0; rating_postId := "p1"; rating_authorId := "alice";
              rating_value := 4; rating_createdAt := 10 |} ] by (by vm_compute).
  cbn [List.filter]. destruct (same_pair post author _); simpl; lia.
Defined.

(** A rating of a post that is not in the sample. *)
Lemma addOrUpdateRating_missing_post_witness :
  let result := addOrUpdateRating 10 "p9" 3 "alice" (sample_db 1) in
  result.1 = Err (NotFound "p9") ∧ ratings result.2 = [].
Proof.
  destruct (addOrUpdateRating_missing_post 10 "p9" 3 "alice" (sample_db 1))
    as (Herr & Hratings & _); [by vm_compute|].
  split; [exact Herr | exact Hratings].
Defined.

(** Deleting the rating of a post that is gone. *)
Lemma deleteRating_missing_post_witness :
  let result := deleteRating "gone" "alice" orphan_db in
  result.1 = Err (NotFound "gone") ∧ orphan_rating ∉ ratings result.2.
Proof.
  destruct (deleteRating_missing_post "gone" "alice" orphan_db orphan_rating [])
    as (Herr & _ & Hgone); [by vm_compute | by vm_compute |].
  split; [exact Herr | exact Hgone].
Defined.

(** Alice and Bob rate the sample post: two ratings, a stored count of
    one. *)
Lemma rate_all_totalRatings_lags_witness :
  let result := rate_all "p1" [(10, "alice", 5); (11, "bob", 3)] (sample_db 1) in
  result.1 = Ok tt
  ∧ length (getPostRatings "p1" result.2) = 2%nat
  ∧ snd <$> post_aggregates "p1" result.2 = Some 1.
Proof.
  apply (rate_all_totalRatings_lags "p1" [(10, "alice", 5); (11, "bob", 3)] (sample_db 1)).
  - vm_compute. eauto.
  - split; [apply NoDup_nil_2 | apply Forall_nil_2].
  - apply (bool_decide_unpack _). by vm_compute.
  - intros author _. reflexivity.
  - discriminate.
Defined.

(** A comment added to the sample site and deleted again. *)
Lemma addComment_then_deleteComment_witness :
  let added := addComment 7 7 "p1" "Hello" "bob" "Bob" "bob@example.org" sample_site in
  let deleted := deleteComment 2 added.2 in
  added.1 = Ok 2%nat ∧ deleted.1 = Ok tt
  ∧ site_comments deleted.2 = site_comments sample_site.
Proof.
  destruct (addComment_then_deleteComment 7 7 "p1" "Hello" "bob" "Bob" "bob@example.org"
              sample_site) as (Hadd & Hdel & Hsame & _).
  - split; [apply (bool_decide_unpack _); by vm_compute|].
    repeat constructor.
  - split; [exact Hadd|]. split; [exact Hdel | exact Hsame].
Defined.

(** Deleting the first post of the sample site. *)
Lemma deletePost_cascades_witness :
  let result := deletePost "p1" sample_site in
  result.1 = Ok tt
  ∧ getPostRatings "p1" (site_db result.2) = []
  ∧ (getComments "p1" result.2).1 = Ok [].
Proof.
  destruct (deletePost_cascades "p1" sample_site)
    as (Hok & _ & _ & _ & _ & Hratings & Hcomments).
  - apply (bool_decide_unpack _). by vm_compute.
  - apply (bool_decide_unpack _). by vm_compute.
  - split; [exact Hok|]. split; [exact Hratings | exact Hcomments].
Defined.


(** Deleting an object of the sample bucket twice. *)
Lemma deleteFile_once_witness :
  let result := deleteFile reliable_storage "temp/u1/a.png" sample_bucket in
  result.1 = Ok tt
  ∧ deleteFile reliable_storage "temp/u1/a.png" result.2
    = (Err (NotFound "temp/u1/a.png"), result.2).
Proof.
  generalize (deleteFile_once reliable_storage "temp/u1/a.png" sample_bucket).
  destruct (sample_bucket !! "temp/u1/a.png") eqn:Hthere;
    [|vm_compute in Hthere; discriminate Hthere].
  intros H. destruct (H eq_refl) as (Hok & _ & Hagain & _).
  split; [exact Hok | exact Hagain].
Defined.

(** The same file, uploaded to a post and to a temp folder. *)
Lemma upload_path_collisions_witness :
  upload_path 1000 picture_file "u1" (Some "p1")
  ≠ upload_path 1000 picture_file "u1" None.
Proof.
  destruct (upload_path_collisions 1000 picture_file picture_file "u1" None)
    as [_ Hapart].
  apply (Hapart 1000 1000 "u1" "p1"). discriminate.
Defined.



(** Moving the first temp picture of the sample bucket to a post. *)
Lemma moveFilesToPost_moves_witness :
  ∃ moved b',
    moveFilesToPost reliable_storage sample_fetch sample_clock [temp_item] "u1" "p1"
      sample_bucket = (Ok moved, b')
    ∧ media_filename <$> moved = ["a.png"]
    ∧ b' !! "temp/u1/a.png" = None.
Proof.
  destruct (moveFilesToPost_moves reliable_storage sample_fetch sample_clock [temp_item]
              "u1" "p1" sample_bucket) as (moved & b' & Hrun & Hnames & Hgone & _).
  - discriminate.
  - reflexivity.
  - apply (bool_decide_unpack _). by vm_compute.
  - intros file ->%list_elem_of_singleton.
    split; [by eexists|]. split; [vm_compute; eauto | reflexivity].
  - exists moved, b'. split; [exact Hrun|]. split; [exact Hnames|].
    apply (Hgone temp_item). by left.
Defined.

(** A third tag typed with blanks around it. *)
Lemma tag_input_keeps_tags_clean_witness :
  TagInput.addTag JSMore.trim_ascii ["travel"; "food"] 5 "  alps "
  = (Some ["travel"; "food"; "alps"], "")
  ∧ TagInput.removeTag ["travel"; "food"; "alps"] "alps" = ["travel"; "food"].
Proof.
  assert (Hnd : NoDup ["travel"; "food"]) by (apply (bool_decide_unpack _); by vm_compute).
  assert (Hne : "" ∉ ["travel"; "food"]) by (apply (bool_decide_unpack _); by vm_compute).
  assert (Hlen : (length ["travel"; "food"] ≤ 5)%nat) by (simpl; lia).
  pose proof (proj1 (tag_input_keeps_tags_clean JSMore.trim_ascii ["travel"; "food"] 5
                       "  alps " "food" Hnd Hne Hlen)) as H.
  change (TagInput.addTag JSMore.trim_ascii ["travel"; "food"] 5 "  alps ")
    with (Some ["travel"; "food"; "alps"], "") in H.
  destruct H as (_ & _ & _ & _ & _ & Hback). split; [reflexivity | exact Hback].
Defined.

(** Three pictures: [next] from the last one leads to the first, and [prev]
    back. *)
Lemma handleMediaNavigation_cycles_witness :
  MediaNavigation.handleMediaNavigation MediaNavigation.next 2
    [temp_item; temp_item; temp_item] = Some 0%Z
  ∧ MediaNavigation.handleMediaNavigation MediaNavigation.prev 0
      [temp_item; temp_item; temp_item] = Some 2%Z.
Proof.
  destruct (proj2 (handleMediaNavigation_cycles [temp_item; temp_item; temp_item] 2))
    as (after & before & Hnext & _ & _ & _ & Hafter & Hprev & _).
  - simpl. lia.
  - subst after. split; [exact Hnext | exact Hprev].
Defined.

End samples.
